(** * A shallow embedding of [bpe_tokenizer.py]

    The class [BPETokenizer] keeps four attributes: [vocab] (an
    insertion-ordered Python [dict] from symbol to frequency),
    [vocab_size], [encoder_dict] and [decoder_dict].  Methods are
    modelled as functions on a record holding those attributes; a
    Python [dict] is an association list without duplicate keys whose
    order is the insertion order; a Python [str] is a list of
    characters; exceptions are an explicit outcome. *)

From Stdlib Require Import String Ascii ZArith Lia Bool Arith PeanoNat List.
Import ListNotations.


(** ** Python strings *)

Definition str := list ascii.

(** A string literal. *)
Definition lit (s : string) : str := list_ascii_of_string s.

Fixpoint str_eqb (a b : str) : bool :=
  match a, b with
  | [], [] => true
  | x :: a', y :: b' => Ascii.eqb x y && str_eqb a' b'
  | _, _ => false
  end.

(** [text[i:j]] for non-negative [i], [j]. *)
Definition slice (text : str) (i j : nat) : str := firstn (j - i) (skipn i text).

(** [text[j]] used as a one-character string; the callers test
    [j < len(text)] first. *)
Definition char_at (text : str) (j : nat) : str :=
  match nth_error text j with
  | Some c => [c]
  | None => []
  end.

(** [s.startswith(p)] *)
Fixpoint startswith (s p : str) : bool :=
  match p, s with
  | [], _ => true
  | y :: p', x :: s' => Ascii.eqb x y && startswith s' p'
  | _ :: _, [] => false
  end.

(** ** Python dictionaries: insertion-ordered association lists *)

Class KeyEq (K : Type) := {
  keqb : K -> K -> bool;
  keqb_eq : forall x y, keqb x y = true <-> x = y
}.

Module Dict.
Section Ops.
Context {K V : Type} `{KeyEq K}.

Definition t := list (K * V).

(** [d.get(k)]; [None] is the [KeyError] of [d[k]]. *)
Fixpoint get (d : t) (k : K) : option V :=
  match d with
  | [] => None
  | (k', v) :: r => if keqb k' k then Some v else get r k
  end.

(** [k in d] *)
Definition mem (d : t) (k : K) : bool :=
  match get d k with Some _ => true | None => false end.

(** [d[k] = v]: an existing key keeps its position, a new key goes last. *)
Fixpoint set (d : t) (k : K) (v : V) : t :=
  match d with
  | [] => [(k, v)]
  | (k', v') :: r => if keqb k' k then (k', v) :: r else (k', v') :: set r k v
  end.

Definition keys (d : t) : list K := map fst d.

Definition len (d : t) : nat := length d.

Definition is_empty (d : t) : bool :=
  match d with [] => true | _ => false end.
End Ops.
Arguments t : clear implicits.
End Dict.

(** ** Exceptions and outcomes *)

Inductive exn : Type :=
| NoEncoderDict                        (* ValueError: cannot encode without an encoder dictionary *)
| NoDecoderDict                        (* ValueError: cannot decode without a decoder dictionary *)
| CannotPad (ntokens : nat) (desired_length : Z)   (* ValueError raised by [pad] *)
| KeyError
| TypeError
| EmptyMax.                            (* ValueError: max() of an empty dict *)

(** [Diverge] is the loop budget of the model running out; the theorems
    below show that it never comes out of [encode] or [train]. *)
Inductive outcome (A : Type) : Type :=
| Ok (a : A)
| Raise (e : exn)
| Diverge.
Arguments Ok {A} a.
Arguments Raise {A} e.
Arguments Diverge {A}.

Definition bind {A B} (m : outcome A) (f : A -> outcome B) : outcome B :=
  match m with
  | Ok a => f a
  | Raise e => Raise e
  | Diverge => Diverge
  end.

Notation "x <- m ;; k" := (bind m (fun x => k))
  (at level 61, m at next level, right associativity).

(** [d[k]] *)
Definition subscript {K V} `{KeyEq K} (d : Dict.t K V) (k : K) : outcome V :=
  match Dict.get d k with
  | Some v => Ok v
  | None => Raise KeyError
  end.

(** ** Key equality for the two key types in use *)

Lemma str_eqb_eq (a b : str) : str_eqb a b = true <-> a = b.
Proof.
  revert b; induction a as [|x a IH]; intros [|y b]; simpl; try easy.
  rewrite andb_true_iff, Ascii.eqb_eq, IH.
  split; [intros [-> ->]; reflexivity | intros E; inversion E; auto].
Qed.

#[export] Instance str_KeyEq : KeyEq str :=
  {| keqb := str_eqb; keqb_eq := str_eqb_eq |}.

#[export] Instance Z_KeyEq : KeyEq Z :=
  {| keqb := Z.eqb; keqb_eq := Z.eqb_eq |}.

(** ** The tokenizer object *)

Definition _UNK : str := lit "<|UNK|>"%string.
Definition _PAD : str := lit "<|PAD|>"%string.
Definition _SOS : str := lit "<|SOS|>"%string.
Definition _EOS : str := lit "<|EOS|>"%string.

Definition chars_of (codes : list nat) : list str :=
  map (fun n => [ascii_of_nat n]) codes.

(** [string.ascii_letters], [string.digits], [string.punctuation]. *)
Definition ascii_letters : list str := chars_of (seq 97 26 ++ seq 65 26).
Definition digits : list str := chars_of (seq 48 10).
Definition punctuation : list str :=
  chars_of (seq 33 15 ++ seq 58 7 ++ seq 91 6 ++ seq 123 4).

Definition _default_chars : list str :=
  [_PAD] ++ (ascii_letters ++ digits ++ punctuation ++ [lit " "%string])
         ++ [_UNK] ++ [_SOS] ++ [_EOS].

Record tokenizer : Type := {
  vocab_size : option Z;
  vocab : Dict.t str Z;
  encoder_dict : option (Dict.t str Z);
  decoder_dict : option (Dict.t Z str)
}.

Definition set_vocab_size_field (t : tokenizer) (n : option Z) : tokenizer :=
  {| vocab_size := n; vocab := vocab t;
     encoder_dict := encoder_dict t; decoder_dict := decoder_dict t |}.

Definition set_vocab_field (t : tokenizer) (v : Dict.t str Z) : tokenizer :=
  {| vocab_size := vocab_size t; vocab := v;
     encoder_dict := encoder_dict t; decoder_dict := decoder_dict t |}.

Definition zlen {A} (l : list A) : Z := Z.of_nat (length l).

Definition _set_vocab_size (t : tokenizer) (n : Z) : tokenizer :=
  if (n >=? zlen (vocab t))%Z
  then set_vocab_size_field t (Some n)
  else set_vocab_size_field t (Some (zlen (vocab t))).

Definition _init_vocab (t : tokenizer) : tokenizer :=
  let v := fold_left (fun d element => Dict.set d element 0%Z) _default_chars [] in
  let vs :=
    match vocab_size t with
    | None => zlen v
    | Some n => if (n =? 0)%Z || (n <? zlen v)%Z then zlen v else n
    end in
  let t1 := set_vocab_size_field t (Some vs) in
  let t2 := set_vocab_field t1 v in
  _set_vocab_size t2 (zlen (vocab t2)).

Definition is_special (token_str : str) : bool :=
  existsb (str_eqb token_str) [_PAD; _UNK; _SOS; _EOS].

(** The [for] loop of [_rebuild_token_dict], with its counter [i]. *)
Fixpoint rebuild_loop (ks : list str) (enc : Dict.t str Z) (dec : Dict.t Z str) (i : Z)
  : Dict.t str Z * Dict.t Z str :=
  match ks with
  | [] => (enc, dec)
  | token_str :: rest =>
      if is_special token_str then rebuild_loop rest enc dec i
      else rebuild_loop rest (Dict.set enc token_str i) (Dict.set dec i token_str) (i + 1)%Z
  end.

Definition rebuild_dicts (v : Dict.t str Z) : Dict.t str Z * Dict.t Z str :=
  let enc := Dict.set [] _PAD 0%Z in
  let dec := Dict.set [] 0%Z _PAD in
  let enc := Dict.set enc _UNK (-999)%Z in
  let dec := Dict.set dec (-999)%Z _UNK in
  let enc := Dict.set enc _SOS (-1)%Z in
  let dec := Dict.set dec (-1)%Z _SOS in
  let enc := Dict.set enc _EOS (-2)%Z in
  let dec := Dict.set dec (-2)%Z _EOS in
  rebuild_loop (Dict.keys v) enc dec 1%Z.

Definition _rebuild_token_dict (t : tokenizer) : tokenizer :=
  let '(enc, dec) := rebuild_dicts (vocab t) in
  {| vocab_size := vocab_size t; vocab := vocab t;
     encoder_dict := Some enc; decoder_dict := Some dec |}.

(** [for key, value in vocab.items(): self.vocab[key] = value] *)
Definition dict_update {K V} `{KeyEq K} (d ext : Dict.t K V) : Dict.t K V :=
  fold_left (fun acc kv => Dict.set acc (fst kv) (snd kv)) ext d.

Definition _update_vocab (t : tokenizer) (ext : Dict.t str Z) : tokenizer :=
  let t1 := set_vocab_field t (dict_update (vocab t) ext) in
  let t2 := _set_vocab_size t1 (zlen (vocab t1)) in
  _rebuild_token_dict t2.

(** ** Padding *)

Definition dict_of (d : option (Dict.t str Z)) : outcome (Dict.t str Z) :=
  match d with
  | Some e => Ok e
  | None => Raise TypeError
  end.

Definition pad (t : tokenizer) (tokens : list Z) (desired_length : Z) : outcome (list Z) :=
  enc <- dict_of (encoder_dict t) ;;
  start_token <- subscript enc _SOS ;;
  end_token <- subscript enc _EOS ;;
  pad_token <- subscript enc _PAD ;;
  if (zlen tokens + 2 >=? desired_length)%Z
  then Raise (CannotPad (length tokens) desired_length)
  else
    let tokens := start_token :: tokens in
    let tokens := tokens ++ [end_token] in
    let n := Z.to_nat (desired_length - zlen tokens) in
    Ok (fold_left (fun acc _ => acc ++ [pad_token]) (seq 0 n) tokens).

(** ** Decoding *)

Definition dict_missing {K V} (d : option (Dict.t K V)) : bool :=
  match d with
  | None => true
  | Some e => Dict.is_empty e
  end.

Fixpoint decode_loop (dec : Dict.t Z str) (tokens : list Z) (decoded : list str)
  : outcome (list str) :=
  match tokens with
  | [] => Ok decoded
  | t :: rest =>
      s <- subscript dec t ;;
      decode_loop dec rest (decoded ++ [s])
  end.

Definition _decode_chunks (t : tokenizer) (tokens : list Z) : outcome (list str) :=
  match decoder_dict t with
  | Some dec =>
      if Dict.is_empty dec then Raise NoDecoderDict
      else decode_loop dec tokens []
  | None => Raise NoDecoderDict
  end.

Definition decode (t : tokenizer) (tokens : list Z) : outcome str :=
  chunks <- _decode_chunks t tokens ;;
  Ok (concat chunks).

(** ** Encoding *)

Record enc_state : Type := {
  st_tokens : list Z;
  st_i : nat;
  st_j : nat;
  st_end_string : bool
}.

(** One pass through the body of the [while j <= len(text)] loop. *)
Definition encode_iter (v enc : Dict.t str Z) (text : str) (st : enc_state)
  : outcome enc_state :=
  let tokens := st_tokens st in
  let i := st_i st in
  let j := st_j st in
  if startswith (skipn i text) _PAD then
    tok <- subscript enc _PAD ;;
    Ok {| st_tokens := tokens ++ [tok]; st_i := i + length _PAD;
          st_j := j; st_end_string := st_end_string st |}
  else if startswith (skipn i text) _EOS then
    tok <- subscript enc _EOS ;;
    Ok {| st_tokens := tokens ++ [tok]; st_i := i + length _EOS;
          st_j := j; st_end_string := st_end_string st |}
  else
    let curr_word := slice text i j in
    let next_char := if j <? length text then char_at text j else [] in
    let end_string := if j <? length text then st_end_string st else true in
    if negb (str_eqb (curr_word ++ next_char) [])
       && (negb (Dict.mem v (curr_word ++ next_char)) || end_string)
    then
      tok <- match Dict.get enc curr_word with
             | Some tok => Ok tok
             | None => subscript enc _UNK
             end ;;
      Ok {| st_tokens := tokens ++ [tok]; st_i := j;
            st_j := j + 1; st_end_string := end_string |}
    else
      Ok {| st_tokens := tokens; st_i := i;
            st_j := j + 1; st_end_string := end_string |}.

Fixpoint encode_loop (fuel : nat) (v enc : Dict.t str Z) (text : str) (st : enc_state)
  : outcome (list Z) :=
  if st_j st <=? length text then
    match fuel with
    | 0 => Diverge
    | S fuel' =>
        st' <- encode_iter v enc text st ;;
        encode_loop fuel' v enc text st'
    end
  else Ok (st_tokens st).

Definition encode_fuel (text : str) : nat := (length text + 1) * (length text + 2).

Definition encode_init : enc_state :=
  {| st_tokens := []; st_i := 0; st_j := 0; st_end_string := false |}.

Definition encode (t : tokenizer) (text : str) (pad_to_tokens : Z) : outcome (list Z) :=
  if dict_missing (encoder_dict t) then Raise NoEncoderDict
  else
    enc <- dict_of (encoder_dict t) ;;
    tokens <- encode_loop (encode_fuel text) (vocab t) enc text encode_init ;;
    if (pad_to_tokens >? 0)%Z then pad t tokens pad_to_tokens else Ok tokens.

(** ** Training *)

(** The [corpus] argument is either one text or a list of texts. *)
Inductive corpus_arg : Type :=
| CorpusStr (s : str)
| CorpusList (l : list str).

Definition bump (d : Dict.t str Z) (k : str) (inc : Z) : Dict.t str Z :=
  match Dict.get d k with
  | Some n => Dict.set d k (n + inc)%Z
  | None => Dict.set d k inc
  end.

Definition _include_corpus_chars (t : tokenizer) (corpus : corpus_arg) : tokenizer :=
  let corpus := match corpus with
                | CorpusList l => concat l
                | CorpusStr s => s
                end in
  set_vocab_field t (fold_left (fun v c => bump v [c] 1%Z) corpus (vocab t)).

(** [str.isspace] on the code points below 256. *)
Definition is_whitespace (c : ascii) : bool :=
  let n := nat_of_ascii c in
  ((9 <=? n) && (n <=? 13)) || ((28 <=? n) && (n <=? 32)) || (n =? 133) || (n =? 160).

(** [s.split()]: the maximal runs of non-whitespace characters. *)
Fixpoint split_from (s word : str) : list str :=
  match s with
  | [] => match word with [] => [] | _ => [word] end
  | c :: r =>
      if is_whitespace c
      then match word with [] => split_from r [] | _ => word :: split_from r [] end
      else split_from r (word ++ [c])
  end.

Definition split (s : str) : list str := split_from s [].

Definition count_words (words : list str) : Dict.t str Z :=
  fold_left (fun cw word => bump cw word 1%Z) words [].

(** The inner [while j < len(text) and len(text) > 2] loop. *)
Fixpoint scan_loop (fuel : nat) (_temp_vocab : Dict.t str Z) (text : str) (inc : Z)
    (i j : nat) (word_freqs : Dict.t str Z) : outcome (Dict.t str Z) :=
  if (j <? length text) && (2 <? length text) then
    match fuel with
    | 0 => Diverge
    | S fuel' =>
        let curr_word := slice text i j in
        let next_char := char_at text j in
        if Dict.mem _temp_vocab (curr_word ++ next_char)
        then scan_loop fuel' _temp_vocab text inc i (j + 1) word_freqs
        else scan_loop fuel' _temp_vocab text inc j (j + 1)
               (bump word_freqs (curr_word ++ next_char) inc)
    end
  else Ok word_freqs.

(** [for text in corpus: ...] *)
Fixpoint scan_corpus (word_level : bool) (_counted_words _temp_vocab : Dict.t str Z)
    (corpus : list str) (word_freqs : Dict.t str Z) : outcome (Dict.t str Z) :=
  match corpus with
  | [] => Ok word_freqs
  | text :: rest =>
      inc <- (if word_level then subscript _counted_words text else Ok 1%Z) ;;
      word_freqs <- scan_loop (length text) _temp_vocab text inc 0 1 word_freqs ;;
      scan_corpus word_level _counted_words _temp_vocab rest word_freqs
  end.

(** [max(d, key=d.get)]: the first key, in iteration order, whose value
    is not exceeded. *)
Definition get_or_zero (d : Dict.t str Z) (k : str) : Z :=
  match Dict.get d k with
  | Some n => n
  | None => 0%Z
  end.

Fixpoint max_from (key : str -> Z) (ks : list str) (best : str) : str :=
  match ks with
  | [] => best
  | k :: r => if (key best <? key k)%Z then max_from key r k else max_from key r best
  end.

Definition py_max (d : Dict.t str Z) : outcome str :=
  match Dict.keys d with
  | [] => Raise EmptyMax
  | k :: r => Ok (max_from (get_or_zero d) r k)
  end.

(** The [while len(_temp_vocab) < desired_vocab_size] loop.  It returns
    the object (whose [vocab_size] the early exit may set) and the final
    [_temp_vocab]. *)
Fixpoint train_loop (fuel : nat) (word_level : bool) (_counted_words : Dict.t str Z)
    (corpus : list str) (desired_vocab_size : Z) (t : tokenizer)
    (_temp_vocab : Dict.t str Z) : outcome (tokenizer * Dict.t str Z) :=
  if (zlen _temp_vocab <? desired_vocab_size)%Z then
    match fuel with
    | 0 => Diverge
    | S fuel' =>
        word_freqs <- scan_corpus word_level _counted_words _temp_vocab corpus [] ;;
        if Dict.is_empty word_freqs then
          Ok (if (zlen _temp_vocab <? desired_vocab_size)%Z
              then _set_vocab_size t (zlen _temp_vocab) else t,
              _temp_vocab)
        else
          best_pair_str <- py_max word_freqs ;;
          occurences <- (k <- py_max word_freqs ;; subscript word_freqs k) ;;
          train_loop fuel' word_level _counted_words corpus desired_vocab_size t
            (Dict.set _temp_vocab best_pair_str occurences)
    end
  else Ok (t, _temp_vocab).

Definition corpus_units (word_level : bool) (corpus : corpus_arg) : list str :=
  let corpus := match corpus with
                | CorpusStr s => [s]
                | CorpusList l => l
                end in
  if word_level then Dict.keys (count_words (flat_map split corpus)) else corpus.

Definition counted_words (word_level : bool) (corpus : corpus_arg) : Dict.t str Z :=
  let corpus := match corpus with
                | CorpusStr s => [s]
                | CorpusList l => l
                end in
  if word_level then count_words (flat_map split corpus) else [].

Definition train_fuel (_temp_vocab : Dict.t str Z) (desired_vocab_size : Z) : nat :=
  Z.to_nat (desired_vocab_size - zlen _temp_vocab).

(** [train] up to the commit: the object after the merge loop and the
    final [_temp_vocab]. *)
Definition train_merge (t : tokenizer) (corpus : corpus_arg) (desired_vocab_size : Z)
    (word_level : bool) : outcome (tokenizer * Dict.t str Z) :=
  let _temp_vocab := vocab t in
  let t := _set_vocab_size t desired_vocab_size in
  let t := _include_corpus_chars t corpus in
  train_loop (train_fuel _temp_vocab desired_vocab_size) word_level
    (counted_words word_level corpus) (corpus_units word_level corpus)
    desired_vocab_size t _temp_vocab.

Definition train (t : tokenizer) (corpus : corpus_arg) (desired_vocab_size : Z)
    (word_level : bool) : outcome tokenizer :=
  r <- train_merge t corpus desired_vocab_size word_level ;;
  Ok (_update_vocab (fst r) (snd r)).

(** ** Construction *)

Definition blank : tokenizer :=
  {| vocab_size := None; vocab := []; encoder_dict := None; decoder_dict := None |}.

Definition corpus_truthy (c : option corpus_arg) : bool :=
  match c with
  | None | Some (CorpusStr []) | Some (CorpusList []) => false
  | _ => true
  end.

(** [__init__] with its file arguments already read: [vocab_or_json_path]
    is the vocabulary mapping itself and [corpus_or_txt_path] the corpus
    text or lines. *)
Definition __init__ (corpus_or_txt_path : option corpus_arg) (vocab_size : option Z)
    (vocab_or_json_path : option (Dict.t str Z)) : outcome tokenizer :=
  let t := _init_vocab blank in
  match vocab_or_json_path, vocab_size, corpus_or_txt_path with
  | Some (kv :: ext), _, _ => Ok (_update_vocab t (kv :: ext))
  | _, Some n, Some corpus =>
      if negb (n =? 0)%Z && corpus_truthy (Some corpus)
      then train (_set_vocab_size t n) corpus n true
      else Ok (_rebuild_token_dict t)
  | _, _, _ => Ok (_rebuild_token_dict t)
  end.

(** * Properties *)

(** ** Dictionaries *)

Section DictFacts.
Context {K V : Type} `{KeyEq K}.
Implicit Types (d : Dict.t K V) (k : K) (v : V).

Lemma keqb_refl k : keqb k k = true.
Proof. apply keqb_eq; reflexivity. Qed.

Lemma keqb_neq k k' : k <> k' -> keqb k k' = false.
Proof.
  intros N; destruct (keqb k k') eqn:E; [|reflexivity].
  apply keqb_eq in E; contradiction.
Qed.

Lemma key_dec k k' : {k = k'} + {k <> k'}.
Proof.
  destruct (keqb k k') eqn:E.
  - left; apply keqb_eq; exact E.
  - right; intros ->; rewrite keqb_refl in E; discriminate.
Qed.

Lemma get_none_keys d k : Dict.get d k = None <-> ~ In k (Dict.keys d).
Proof.
  induction d as [|[k' v'] r IH]; simpl; [tauto|].
  destruct (key_dec k' k) as [->|N].
  - rewrite keqb_refl; split; [discriminate | intros C; exfalso; auto].
  - rewrite (keqb_neq _ _ N), IH; tauto.
Qed.

Lemma mem_keys d k : Dict.mem d k = true <-> In k (Dict.keys d).
Proof.
  unfold Dict.mem; destruct (Dict.get d k) eqn:E.
  - split; [intros _|reflexivity].
    destruct (in_dec key_dec k (Dict.keys d)) as [I|N]; [exact I|].
    apply get_none_keys in N; congruence.
  - apply get_none_keys in E; split; [discriminate | contradiction].
Qed.

Lemma mem_false_keys d k : Dict.mem d k = false <-> ~ In k (Dict.keys d).
Proof.
  rewrite <- mem_keys; destruct (Dict.mem d k); split; congruence.
Qed.

Lemma get_set_same d k v : Dict.get (Dict.set d k v) k = Some v.
Proof.
  induction d as [|[k' v'] r IH]; simpl.
  - rewrite keqb_refl; reflexivity.
  - destruct (keqb k' k) eqn:E; simpl; rewrite E; auto.
Qed.

Lemma get_set_other d k k' v : k <> k' -> Dict.get (Dict.set d k v) k' = Dict.get d k'.
Proof.
  intros N; induction d as [|[k0 v0] r IH]; simpl.
  - rewrite (keqb_neq _ _ N); reflexivity.
  - destruct (keqb k0 k) eqn:E; simpl.
    + apply keqb_eq in E; subst k0; rewrite (keqb_neq _ _ N); reflexivity.
    + rewrite IH; reflexivity.
Qed.

Lemma set_fresh d k v : Dict.mem d k = false -> Dict.set d k v = d ++ [(k, v)].
Proof.
  unfold Dict.mem; induction d as [|[k0 v0] r IH]; simpl; [reflexivity|].
  destruct (keqb k0 k); [discriminate|].
  intros M; rewrite (IH M); reflexivity.
Qed.

Lemma keys_set_mem d k v : Dict.mem d k = true -> Dict.keys (Dict.set d k v) = Dict.keys d.
Proof.
  unfold Dict.mem; induction d as [|[k0 v0] r IH]; simpl; [discriminate|].
  destruct (keqb k0 k) eqn:E; simpl; [reflexivity|].
  intros M; rewrite (IH M); reflexivity.
Qed.

Lemma keys_set d k v :
  Dict.keys (Dict.set d k v) = if Dict.mem d k then Dict.keys d else Dict.keys d ++ [k].
Proof.
  destruct (Dict.mem d k) eqn:M.
  - apply keys_set_mem; exact M.
  - rewrite (set_fresh _ _ _ M); unfold Dict.keys; rewrite map_app; reflexivity.
Qed.

Lemma length_set d k v :
  length (Dict.set d k v) = if Dict.mem d k then length d else S (length d).
Proof.
  rewrite <- !(length_map fst); change (map fst) with (@Dict.keys K V).
  rewrite keys_set; destruct (Dict.mem d k); [reflexivity|].
  rewrite length_app; simpl; lia.
Qed.

Lemma length_set_ge d k v : length d <= length (Dict.set d k v).
Proof. rewrite length_set; destruct (Dict.mem d k); lia. Qed.

Lemma length_set_le d k v : length (Dict.set d k v) <= S (length d).
Proof. rewrite length_set; destruct (Dict.mem d k); lia. Qed.

Lemma NoDup_keys_set d k v : NoDup (Dict.keys d) -> NoDup (Dict.keys (Dict.set d k v)).
Proof.
  intros ND; rewrite keys_set; destruct (Dict.mem d k) eqn:M; [exact ND|].
  apply mem_false_keys in M.
  apply NoDup_app; [exact ND | repeat constructor; simpl; tauto |].
  intros x I [<-|[]]; contradiction.
Qed.

Lemma mem_set d k k' v :
  Dict.mem (Dict.set d k v) k' = keqb k k' || Dict.mem d k'.
Proof.
  unfold Dict.mem; destruct (key_dec k k') as [->|N].
  - rewrite get_set_same, keqb_refl; reflexivity.
  - rewrite (get_set_other _ _ _ _ N), (keqb_neq _ _ N); reflexivity.
Qed.

Lemma get_In d k v : NoDup (Dict.keys d) -> (Dict.get d k = Some v <-> In (k, v) d).
Proof.
  induction d as [|[k0 v0] r IH]; simpl; intros ND; [split; [discriminate|tauto]|].
  inversion ND as [|? ? NI ND']; subst.
  destruct (key_dec k0 k) as [->|N].
  - rewrite keqb_refl; split.
    + intros E; inversion E; auto.
    + intros [E|I]; [inversion E; reflexivity|].
      exfalso; apply NI; apply (in_map fst) in I; exact I.
  - rewrite (keqb_neq _ _ N), (IH ND'); split; [auto|].
    intros [E|I]; [inversion E; contradiction | exact I].
Qed.

Lemma get_app d d' k :
  Dict.get (d ++ d') k = match Dict.get d k with Some v => Some v | None => Dict.get d' k end.
Proof.
  induction d as [|[k0 v0] r IH]; simpl; [reflexivity|].
  destruct (keqb k0 k); [reflexivity | exact IH].
Qed.

Lemma length_update_ge d (ext : Dict.t K V) : length d <= length (dict_update d ext).
Proof.
  unfold dict_update; revert d; induction ext as [|[k v] r IH]; intros d; simpl; [lia|].
  etransitivity; [apply (length_set_ge d k v) | apply IH].
Qed.

Lemma NoDup_keys_update d (ext : Dict.t K V) :
  NoDup (Dict.keys d) -> NoDup (Dict.keys (dict_update d ext)).
Proof.
  unfold dict_update; revert d; induction ext as [|[k v] r IH]; intros d ND; simpl; [exact ND|].
  apply IH, NoDup_keys_set, ND.
Qed.

Lemma mem_update_keep d (ext : Dict.t K V) k :
  Dict.mem d k = true -> Dict.mem (dict_update d ext) k = true.
Proof.
  unfold dict_update; revert d; induction ext as [|[k0 v0] r IH]; intros d M; simpl; [exact M|].
  apply IH; rewrite mem_set, M; apply orb_true_r.
Qed.
End DictFacts.

(** ** The ID mapping built by [_rebuild_token_dict] *)

(** The learned symbols: the keys of the table, in table order, without
    the four special symbols. *)
Definition learned (v : Dict.t str Z) : list str :=
  filter (fun k => negb (is_special k)) (Dict.keys v).

Fixpoint zseq (i : Z) (n : nat) : list Z :=
  match n with
  | 0 => []
  | S n' => i :: zseq (i + 1)%Z n'
  end.

Definition specials_enc : Dict.t str Z :=
  [(_PAD, 0%Z); (_UNK, (-999)%Z); (_SOS, (-1)%Z); (_EOS, (-2)%Z)].

Definition specials_dec : Dict.t Z str :=
  [(0%Z, _PAD); ((-999)%Z, _UNK); ((-1)%Z, _SOS); ((-2)%Z, _EOS)].

Lemma in_zseq id i n : In id (zseq i n) <-> (i <= id < i + Z.of_nat n)%Z.
Proof.
  revert i; induction n as [|n IH]; intros i; simpl zseq.
  - simpl; lia.
  - simpl In; rewrite IH; lia.
Qed.

Lemma NoDup_zseq i n : NoDup (zseq i n).
Proof.
  revert i; induction n as [|n IH]; intros i; simpl; constructor; [|apply IH].
  rewrite in_zseq; lia.
Qed.

Lemma length_zseq i n : length (zseq i n) = n.
Proof. revert i; induction n as [|n IH]; intros i; simpl; [|rewrite IH]; reflexivity. Qed.

Lemma keys_combine {A B} (l : list A) (l' : list B) :
  length l = length l' -> map fst (combine l l') = l /\ map snd (combine l l') = l'.
Proof.
  revert l'; induction l as [|a l IH]; intros [|b l']; simpl; try discriminate; auto.
  intros E; injection E as E; destruct (IH _ E) as [-> ->]; auto.
Qed.

Lemma in_combine_swap {A B} (l : list A) (l' : list B) a b :
  In (a, b) (combine l l') <-> In (b, a) (combine l' l).
Proof.
  revert l'; induction l as [|x l IH]; intros [|y l']; simpl; try tauto.
  rewrite IH; split; (intros [E|I]; [left; inversion E; reflexivity | right; exact I]).
Qed.

Lemma in_combine_zseq (L : list str) i n s :
  nth_error L n = Some s -> In (s, (i + Z.of_nat n)%Z) (combine L (zseq i (length L))).
Proof.
  revert i n; induction L as [|x L IH]; intros i [|n]; simpl; try discriminate.
  - intros E; injection E as ->; left; f_equal; lia.
  - intros E; right.
    replace (i + Z.pos (Pos.of_succ_nat n))%Z with ((i + 1) + Z.of_nat n)%Z by lia.
    apply IH; exact E.
Qed.

Lemma special_mem k : Dict.mem specials_enc k = is_special k.
Proof.
  apply eq_true_iff_eq; rewrite mem_keys; unfold is_special; rewrite existsb_exists.
  change (Dict.keys specials_enc) with [_PAD; _UNK; _SOS; _EOS].
  split.
  - intros I; exists k; split; [exact I | apply str_eqb_eq; reflexivity].
  - intros [x [I E]]; apply str_eqb_eq in E; subst x; exact I.
Qed.

Lemma rebuild_loop_closed (ks : list str) :
  forall enc dec i,
    NoDup ks ->
    (forall k, In k ks -> is_special k = false -> Dict.mem enc k = false) ->
    (forall id, (i <= id)%Z -> Dict.mem dec id = false) ->
    let L := filter (fun k => negb (is_special k)) ks in
    rebuild_loop ks enc dec i
    = (enc ++ combine L (zseq i (length L)), dec ++ combine (zseq i (length L)) L).
Proof.
  induction ks as [|k ks IH]; intros enc dec i ND Fe Fd; simpl.
  - rewrite !app_nil_r; reflexivity.
  - inversion ND as [|? ? NI ND']; subst.
    destruct (is_special k) eqn:Sk; simpl.
    + apply IH; auto. intros k' I; apply Fe; right; exact I.
    + rewrite (set_fresh enc k i) by (apply Fe; [left; reflexivity | exact Sk]).
      rewrite (set_fresh dec i k) by (apply Fd; lia).
      rewrite IH; auto.
      * rewrite <- !app_assoc; reflexivity.
      * intros k' I Sk'. apply mem_false_keys. unfold Dict.keys; rewrite map_app, in_app_iff.
        intros [I'|[E|[]]].
        -- apply (proj1 (mem_false_keys enc k')) in I'; [exact I'|].
           apply Fe; [right; exact I | exact Sk'].
        -- simpl in E; subst k'; contradiction.
      * intros id Hid. apply mem_false_keys. unfold Dict.keys; rewrite map_app, in_app_iff.
        intros [I'|[E|[]]].
        -- apply (proj1 (mem_false_keys dec id)) in I'; [exact I'|]. apply Fd; lia.
        -- simpl in E; lia.
Qed.

Lemma rebuild_dicts_closed (v : Dict.t str Z) :
  NoDup (Dict.keys v) ->
  rebuild_dicts v
  = (specials_enc ++ combine (learned v) (zseq 1 (length (learned v))),
     specials_dec ++ combine (zseq 1 (length (learned v))) (learned v)).
Proof.
  intros ND; unfold rebuild_dicts.
  change (Dict.set (Dict.set (Dict.set (Dict.set [] _PAD 0%Z) _UNK (-999)%Z) _SOS (-1)%Z)
            _EOS (-2)%Z) with specials_enc.
  change (Dict.set (Dict.set (Dict.set (Dict.set [] 0%Z _PAD) (-999)%Z _UNK) (-1)%Z _SOS)
            (-2)%Z _EOS) with specials_dec.
  apply rebuild_loop_closed; [exact ND | |].
  - intros k _ Sk; rewrite special_mem; exact Sk.
  - intros id Hid; apply mem_false_keys; simpl; lia.
Qed.

Lemma learned_not_special v s : In s (learned v) -> is_special s = false.
Proof.
  unfold learned; rewrite filter_In; intros [_ E].
  destruct (is_special s); [discriminate | reflexivity].
Qed.

Lemma NoDup_learned v : NoDup (Dict.keys v) -> NoDup (learned v).
Proof. apply NoDup_filter. Qed.

Lemma NoDup_enc_keys v :
  NoDup (Dict.keys v) ->
  NoDup (Dict.keys (specials_enc ++ combine (learned v) (zseq 1 (length (learned v))))).
Proof.
  intros ND; unfold Dict.keys; rewrite map_app.
  rewrite (proj1 (keys_combine _ _ (eq_sym (length_zseq 1 (length (learned v)))))).
  apply NoDup_app; [|apply NoDup_learned, ND|].
  - simpl; repeat constructor; simpl; intuition discriminate.
  - intros s I L; apply learned_not_special in L.
    rewrite <- special_mem in L; apply mem_false_keys in L; contradiction.
Qed.

Lemma NoDup_dec_keys v :
  NoDup (Dict.keys (specials_dec ++ combine (zseq 1 (length (learned v))) (learned v))).
Proof.
  unfold Dict.keys; rewrite map_app.
  rewrite (proj1 (keys_combine _ _ (length_zseq 1 (length (learned v))))).
  apply NoDup_app; [|apply NoDup_zseq|].
  - simpl; repeat constructor; simpl; intuition discriminate.
  - intros id I Z; apply in_zseq in Z; simpl in I; lia.
Qed.

Lemma rebuild_inverse v s id :
  NoDup (Dict.keys v) ->
  Dict.get (fst (rebuild_dicts v)) s = Some id <-> Dict.get (snd (rebuild_dicts v)) id = Some s.
Proof.
  intros ND; rewrite (rebuild_dicts_closed v ND); cbn [fst snd].
  rewrite (get_In _ s id (NoDup_enc_keys v ND)), (get_In _ id s (NoDup_dec_keys v)).
  rewrite !in_app_iff, in_combine_swap.
  assert (S : In (s, id) specials_enc <-> In (id, s) specials_dec).
  { simpl; split; intros C; repeat (destruct C as [C|C]; [inversion C; auto 6|]); destruct C. }
  rewrite S; reflexivity.
Qed.

Lemma rebuild_covers v s :
  NoDup (Dict.keys v) -> Dict.mem v s = true ->
  exists id, Dict.get (fst (rebuild_dicts v)) s = Some id.
Proof.
  intros ND M; rewrite (rebuild_dicts_closed v ND); cbn [fst].
  rewrite get_app.
  destruct (Dict.get specials_enc s) as [id|] eqn:E; [eauto|].
  assert (L : In s (learned v)).
  { unfold learned; apply filter_In; split; [apply mem_keys, M|].
    rewrite <- special_mem; unfold Dict.mem; rewrite E; reflexivity. }
  destruct (In_nth_error _ _ L) as [n Hn].
  exists (1 + Z.of_nat n)%Z.
  apply get_In; [|apply in_combine_zseq, Hn].
  unfold Dict.keys; rewrite (proj1 (keys_combine _ _ (eq_sym (length_zseq 1 (length (learned v)))))).
  apply NoDup_learned, ND.
Qed.

(** C7.  Every rebuild of the ID mapping gives the four special symbols
    their fixed IDs (PAD=0, SOS=-1, EOS=-2, UNK=-999) in both directions,
    numbers the learned symbols 1, 2, 3, ... in table order, and the
    symbol-to-ID and ID-to-symbol dictionaries are inverse to each other. *)
Theorem rebuild_token_dict_bijection (t : tokenizer) :
  NoDup (Dict.keys (vocab t)) ->
  exists enc dec,
    encoder_dict (_rebuild_token_dict t) = Some enc /\
    decoder_dict (_rebuild_token_dict t) = Some dec /\
    (Dict.get enc _PAD = Some 0%Z /\ Dict.get enc _SOS = Some (-1)%Z /\
     Dict.get enc _EOS = Some (-2)%Z /\ Dict.get enc _UNK = Some (-999)%Z) /\
    (Dict.get dec 0%Z = Some _PAD /\ Dict.get dec (-1)%Z = Some _SOS /\
     Dict.get dec (-2)%Z = Some _EOS /\ Dict.get dec (-999)%Z = Some _UNK) /\
    (forall n s, nth_error (learned (vocab t)) n = Some s ->
       Dict.get enc s = Some (Z.of_nat n + 1)%Z /\
       Dict.get dec (Z.of_nat n + 1)%Z = Some s) /\
    (forall s id, Dict.get enc s = Some id <-> Dict.get dec id = Some s).
Proof.
  intros ND.
  pose proof (fun s id => rebuild_inverse (vocab t) s id ND) as I.
  unfold _rebuild_token_dict.
  rewrite (rebuild_dicts_closed (vocab t) ND) in *; cbn [fst snd] in I.
  eexists _, _; split; [reflexivity|]; split; [reflexivity|].
  split; [repeat split; reflexivity|]; split; [repeat split; reflexivity|].
  split; [|exact I].
  intros n s Hn.
  assert (E : Dict.get (specials_enc
                ++ combine (learned (vocab t)) (zseq 1 (length (learned (vocab t))))) s
              = Some (Z.of_nat n + 1)%Z).
  { apply get_In; [apply NoDup_enc_keys, ND|].
    apply in_app_iff; right.
    replace (Z.of_nat n + 1)%Z with (1 + Z.of_nat n)%Z by lia.
    apply in_combine_zseq, Hn. }
  split; [exact E | apply I, E].
Qed.

(** ** Strings: slices and prefixes *)

Lemma startswith_app (s p : str) : startswith s p = true <-> exists r, s = p ++ r.
Proof.
  revert s; induction p as [|y p IH]; intros s; simpl.
  - split; [intros _; exists s; reflexivity | intros _; destruct s; reflexivity].
  - destruct s as [|x s]; simpl; [split; [discriminate | intros [r E]; discriminate]|].
    rewrite andb_true_iff, Ascii.eqb_eq, IH; split.
    + intros [-> [r ->]]; exists r; reflexivity.
    + intros [r E]; injection E as -> ->; split; [reflexivity | exists r; reflexivity].
Qed.

Lemma slice_empty (text : str) i j : j <= i -> slice text i j = [].
Proof. intros L; unfold slice; replace (j - i) with 0 by lia; reflexivity. Qed.

Lemma slice_to_end (text : str) i : slice text i (length text) = skipn i text.
Proof.
  unfold slice; apply firstn_all2; rewrite length_skipn; lia.
Qed.

Lemma skipn_char_at (text : str) j :
  j < length text -> skipn j text = char_at text j ++ skipn (S j) text.
Proof.
  revert j; induction text as [|c text IH]; intros [|j] L; simpl in *; try lia; [reflexivity|].
  apply IH; lia.
Qed.

Lemma char_at_length (text : str) j : j < length text -> length (char_at text j) = 1.
Proof.
  intros L; unfold char_at; destruct (nth_error text j) eqn:E; [reflexivity|].
  apply nth_error_None in E; lia.
Qed.

Lemma firstn_snoc (s : str) n :
  n < length s -> firstn n s ++ char_at s n = firstn (S n) s.
Proof.
  revert n; induction s as [|c s IH]; intros [|n] L; simpl in *; try lia; [reflexivity|].
  f_equal; apply IH; lia.
Qed.

Lemma slice_snoc (text : str) i j :
  i <= j -> j < length text -> slice text i j ++ char_at text j = slice text i (S j).
Proof.
  intros L1 L2; unfold slice.
  replace (S j - i) with (S (j - i)) by lia.
  rewrite <- firstn_snoc by (rewrite length_skipn; lia).
  f_equal; unfold char_at; rewrite nth_error_skipn.
  replace (i + (j - i)) with j by lia; reflexivity.
Qed.

Lemma slice_skipn (text : str) i j :
  i <= j -> skipn i text = slice text i j ++ skipn j text.
Proof.
  intros L; unfold slice.
  rewrite <- (firstn_skipn (j - i) (skipn i text)) at 1.
  rewrite skipn_skipn; replace (j - i + i) with j by lia; reflexivity.
Qed.

Lemma slice_single (text : str) i : slice text i (S i) = char_at text i.
Proof.
  unfold slice, char_at; replace (S i - i) with 1 by lia.
  revert i; induction text as [|c text IH]; intros [|i]; simpl; try reflexivity.
  apply IH.
Qed.

Lemma slice_nonempty (text : str) i j :
  i < j -> j <= length text -> slice text i j <> [].
Proof.
  intros L1 L2 E; apply (f_equal (@length ascii)) in E; unfold slice in E.
  rewrite length_firstn, length_skipn in E; simpl in E; lia.
Qed.

Lemma char_at_app_r (pre rest : str) j :
  char_at (pre ++ rest) (length pre + j) = char_at rest j.
Proof.
  unfold char_at; rewrite nth_error_app2 by lia.
  replace (length pre + j - length pre) with j by lia; reflexivity.
Qed.

Lemma char_at_app_l (pre rest : str) j :
  j < length pre -> char_at (pre ++ rest) j = char_at pre j.
Proof. intros L; unfold char_at; rewrite nth_error_app1 by exact L; reflexivity. Qed.

Lemma skipn_app_r (pre rest : str) i :
  skipn (length pre + i) (pre ++ rest) = skipn i rest.
Proof.
  rewrite skipn_app, skipn_all2 by lia.
  replace (length pre + i - length pre) with i by lia; reflexivity.
Qed.

Lemma slice_app_r (pre rest : str) i j :
  slice (pre ++ rest) (length pre + i) (length pre + j) = slice rest i j.
Proof.
  unfold slice; rewrite skipn_app_r; f_equal; lia.
Qed.

Lemma slice_app_l (pre rest : str) i j :
  j <= length pre -> slice (pre ++ rest) i j = slice pre i j.
Proof.
  intros L; unfold slice; rewrite skipn_app, firstn_app, length_skipn.
  replace (j - i - (length pre - i)) with 0 by lia.
  rewrite firstn_O, app_nil_r; reflexivity.
Qed.

(** ** The segmentation loop of [encode] as a recursive function *)

Definition at_marker (text : str) (i : nat) : option Z :=
  if startswith (skipn i text) _PAD then Some 0%Z
  else if startswith (skipn i text) _EOS then Some (-2)%Z
  else None.

Definition measure (text : str) (i j : nat) : nat :=
  (length text + 1 - j) * (length text + 1) + (length text - i).

Lemma at_marker_skipn text i m :
  at_marker text i = Some m ->
  exists mk r, ((mk = _PAD /\ m = 0%Z) \/ (mk = _EOS /\ m = (-2)%Z)) /\ skipn i text = mk ++ r.
Proof.
  unfold at_marker.
  destruct (startswith (skipn i text) _PAD) eqn:P.
  - intros E; injection E as <-; apply startswith_app in P as [r P]; eauto 6.
  - destruct (startswith (skipn i text) _EOS) eqn:Q; [|discriminate].
    intros E; injection E as <-; apply startswith_app in Q as [r Q]; eauto 6.
Qed.

Lemma at_marker_bound text i m : at_marker text i = Some m -> i + 7 <= length text.
Proof.
  intros A; destruct (at_marker_skipn _ _ _ A) as [mk [r [D E]]].
  apply (f_equal (@length ascii)) in E; rewrite length_skipn, length_app in E.
  assert (length mk = 7) by (destruct D as [[-> _]|[-> _]]; reflexivity).
  lia.
Qed.

Lemma measure_marker text i j m :
  at_marker text i = Some m -> measure text (i + 7) j < measure text i j.
Proof. intros A; apply at_marker_bound in A; unfold measure; lia. Qed.

Lemma measure_body text i i' j :
  j <= length text -> measure text i' (j + 1) < measure text i j.
Proof. intros L; unfold measure; nia. Qed.

Section EncodeLoop.
Variables v enc : Dict.t str Z.

(** The token of a finalized candidate: its ID, or UNK's. *)
Definition tok_of (w : str) : Z :=
  match Dict.get enc w with
  | Some tok => tok
  | None => (-999)%Z
  end.

(** The tokens the loop appends when it is entered with cursors [i]
    and [j] and [end_string] still false. *)
Fixpoint emit (fuel : nat) (text : str) (i j : nat) : list Z :=
  match fuel with
  | 0 => []
  | S fuel' =>
      if length text <? j then []
      else
        match at_marker text i with
        | Some m => m :: emit fuel' text (i + 7) j
        | None =>
            if j <? length text then
              if Dict.mem v (slice text i j ++ char_at text j)
              then emit fuel' text i (j + 1)
              else tok_of (slice text i j) :: emit fuel' text j (j + 1)
            else
              if str_eqb (slice text i j) [] then []
              else [tok_of (slice text i j)]
        end
  end.

Lemma emit_fuel text : forall f f' i j,
  measure text i j < f -> measure text i j < f' -> emit f text i j = emit f' text i j.
Proof.
  induction f as [|f IH]; intros [|f'] i j L L'; try lia; simpl.
  destruct (length text <? j) eqn:J; [reflexivity|].
  apply Nat.ltb_ge in J.
  destruct (at_marker text i) as [m|] eqn:A.
  - f_equal; pose proof (measure_marker text i j m A); apply IH; lia.
  - destruct (j <? length text); [|reflexivity].
    pose proof (measure_body text i i j J); pose proof (measure_body text i j j J).
    destruct (Dict.mem v _); [|f_equal]; apply IH; lia.
Qed.

Definition E (text : str) (i j : nat) : list Z := emit (S (measure text i j)) text i j.

Lemma E_unfold text i j :
  E text i j =
  if length text <? j then []
  else
    match at_marker text i with
    | Some m => m :: E text (i + 7) j
    | None =>
        if j <? length text then
          if Dict.mem v (slice text i j ++ char_at text j)
          then E text i (j + 1)
          else tok_of (slice text i j) :: E text j (j + 1)
        else
          if str_eqb (slice text i j) [] then []
          else [tok_of (slice text i j)]
    end.
Proof.
  unfold E at 1; cbn [emit].
  destruct (length text <? j) eqn:J; [reflexivity|].
  apply Nat.ltb_ge in J.
  destruct (at_marker text i) as [m|] eqn:A.
  - f_equal; pose proof (measure_marker text i j m A); apply emit_fuel; lia.
  - destruct (j <? length text); [|reflexivity].
    pose proof (measure_body text i i j J); pose proof (measure_body text i j j J).
    destruct (Dict.mem v _); [|f_equal]; apply emit_fuel; lia.
Qed.

Hypothesis enc_PAD : Dict.get enc _PAD = Some 0%Z.
Hypothesis enc_EOS : Dict.get enc _EOS = Some (-2)%Z.
Hypothesis enc_UNK : Dict.get enc _UNK = Some (-999)%Z.

Lemma encode_loop_emit text : forall fuel st,
  st_end_string st = false ->
  measure text (st_i st) (st_j st) < fuel ->
  encode_loop fuel v enc text st
  = Ok (st_tokens st ++ emit fuel text (st_i st) (st_j st)).
Proof.
  induction fuel as [|fuel IH]; intros [T i j e] He L; simpl in *; [lia|]; subst e.
  destruct (j <=? length text) eqn:J.
  - apply Nat.leb_le in J.
    replace (length text <? j) with false by (symmetry; apply Nat.ltb_ge; exact J).
    unfold encode_iter, at_marker; cbn [st_tokens st_i st_j st_end_string].
    destruct (startswith (skipn i text) _PAD) eqn:P.
    { unfold subscript; rewrite enc_PAD; cbn [bind].
      rewrite IH; cbn [st_tokens st_i st_j st_end_string]; [|reflexivity|].
      - rewrite <- app_assoc; reflexivity.
      - assert (A : at_marker text i = Some 0%Z) by (unfold at_marker; rewrite P; reflexivity).
        pose proof (measure_marker text i j _ A); change (length _PAD) with 7; lia. }
    destruct (startswith (skipn i text) _EOS) eqn:Q.
    { unfold subscript; rewrite enc_EOS; cbn [bind].
      rewrite IH; cbn [st_tokens st_i st_j st_end_string]; [|reflexivity|].
      - rewrite <- app_assoc; reflexivity.
      - assert (A : at_marker text i = Some (-2)%Z)
          by (unfold at_marker; rewrite P, Q; reflexivity).
        pose proof (measure_marker text i j _ A); change (length _EOS) with 7; lia. }
    assert (TK : match Dict.get enc (slice text i j) with
                 | Some tok => Ok tok
                 | None => subscript enc _UNK
                 end = Ok (tok_of (slice text i j))).
    { unfold tok_of, subscript; rewrite enc_UNK; destruct (Dict.get enc (slice text i j)); reflexivity. }
    destruct (j <? length text) eqn:J'.
    + apply Nat.ltb_lt in J'.
      assert (NE : str_eqb (slice text i j ++ char_at text j) [] = false).
      { destruct (str_eqb _ []) eqn:C; [|reflexivity].
        apply str_eqb_eq, (f_equal (@length ascii)) in C.
        rewrite length_app, (char_at_length text j J') in C; simpl in C; lia. }
      rewrite NE, orb_false_r; cbn [negb andb].
      destruct (Dict.mem v (slice text i j ++ char_at text j)); cbn [negb].
      * cbn [bind]; rewrite IH; cbn [st_tokens st_i st_j st_end_string]; [reflexivity..|].
        pose proof (measure_body text i i j J); lia.
      * rewrite TK; cbn [bind].
        rewrite IH; cbn [st_tokens st_i st_j st_end_string]; [|reflexivity|].
        -- rewrite <- app_assoc; reflexivity.
        -- pose proof (measure_body text i j j J); lia.
    + apply Nat.ltb_ge in J'; rewrite app_nil_r, orb_true_r, andb_true_r.
      assert (X : forall T', encode_loop fuel v enc text
                   {| st_tokens := T'; st_i := i; st_j := j + 1; st_end_string := true |}
                 = Ok T' /\
                 encode_loop fuel v enc text
                   {| st_tokens := T'; st_i := j; st_j := j + 1; st_end_string := true |}
                 = Ok T').
      { intros T'; replace (j + 1) with (S (length text)) by lia.
        destruct fuel; cbn [encode_loop st_j st_tokens];
          rewrite (proj2 (Nat.leb_gt _ _)) by lia; auto. }
      destruct (str_eqb (slice text i j) []); cbn [negb].
      * cbn [bind]; rewrite (proj1 (X T)), app_nil_r; reflexivity.
      * rewrite TK; cbn [bind]; rewrite (proj2 (X _)); reflexivity.
  - apply Nat.leb_gt in J.
    replace (length text <? j) with true by (symmetry; apply Nat.ltb_lt; exact J).
    rewrite app_nil_r; reflexivity.
Qed.

Lemma encode_loop_E text :
  encode_loop (encode_fuel text) v enc text encode_init = Ok (E text 0 0).
Proof.
  assert (L : measure text 0 0 < encode_fuel text) by (unfold measure, encode_fuel; nia).
  rewrite encode_loop_emit; [|reflexivity|exact L].
  cbn [encode_init st_tokens st_i st_j app]; f_equal.
  apply emit_fuel; [exact L | unfold E; lia].
Qed.
End EncodeLoop.

(** ** Tokenizer instances and their invariant *)

(** The ID mapping is the one rebuilt from the current table. *)
Definition synced (t : tokenizer) : Prop :=
  encoder_dict t = Some (fst (rebuild_dicts (vocab t))) /\
  decoder_dict t = Some (snd (rebuild_dicts (vocab t))).

Definition has_default_chars (v : Dict.t str Z) : Prop :=
  forall c, In c _default_chars -> Dict.mem v c = true.

Record wf (t : tokenizer) : Prop := {
  wf_nodup : NoDup (Dict.keys (vocab t));
  wf_synced : synced t;
  wf_default : has_default_chars (vocab t)
}.

(** The objects a program can hold: built by the constructor, then
    trained or loaded with a vocabulary any number of times. *)
Inductive instance : tokenizer -> Prop :=
| inst_init c n vj t :
    __init__ c n vj = Ok t -> instance t
| inst_train t c n wl t' :
    instance t -> train t c n wl = Ok t' -> instance t'
| inst_load t ext :
    instance t -> instance (_update_vocab t ext).

Definition unconfigured : tokenizer := _rebuild_token_dict (_init_vocab blank).

Lemma vocab_set_vocab_size t n : vocab (_set_vocab_size t n) = vocab t.
Proof. unfold _set_vocab_size; destruct (n >=? zlen (vocab t))%Z; reflexivity. Qed.

Lemma vocab_rebuild t : vocab (_rebuild_token_dict t) = vocab t.
Proof. unfold _rebuild_token_dict; destruct (rebuild_dicts (vocab t)); reflexivity. Qed.

Lemma vocab_update_vocab t ext : vocab (_update_vocab t ext) = dict_update (vocab t) ext.
Proof. unfold _update_vocab; rewrite vocab_rebuild, vocab_set_vocab_size; reflexivity. Qed.

Lemma synced_rebuild t : synced (_rebuild_token_dict t).
Proof.
  unfold synced, _rebuild_token_dict; destruct (rebuild_dicts (vocab t)) as [e d] eqn:R.
  simpl; rewrite R; auto.
Qed.

Lemma bump_keys_nodup (d : Dict.t str Z) k inc :
  NoDup (Dict.keys d) -> NoDup (Dict.keys (bump d k inc)).
Proof. unfold bump; destruct (Dict.get d k); apply NoDup_keys_set. Qed.

Lemma bump_mem (d : Dict.t str Z) k k' inc :
  Dict.mem (bump d k inc) k' = str_eqb k k' || Dict.mem d k'.
Proof.
  change (str_eqb k k') with (keqb k k').
  unfold bump; destruct (Dict.get d k); apply mem_set.
Qed.

Lemma bump_length_ge (d : Dict.t str Z) k inc : length d <= length (bump d k inc).
Proof. unfold bump; destruct (Dict.get d k); apply length_set_ge. Qed.

Lemma include_chars_fold (cs : str) : forall v : Dict.t str Z,
  let v' := fold_left (fun v c => bump v [c] 1%Z) cs v in
  (NoDup (Dict.keys v) -> NoDup (Dict.keys v')) /\
  (forall k, Dict.mem v k = true -> Dict.mem v' k = true) /\
  (forall c, In c cs -> Dict.mem v' [c] = true) /\
  length v <= length v'.
Proof.
  induction cs as [|c cs IH]; intros v; simpl; [repeat split; auto; tauto|].
  destruct (IH (bump v [c] 1%Z)) as [N [M [C L]]]; repeat split.
  - intros ND; apply N, bump_keys_nodup, ND.
  - intros k Hk; apply M; rewrite bump_mem, Hk; apply orb_true_r.
  - intros c' [<-|I]; [|apply C, I].
    apply M; rewrite bump_mem; simpl; rewrite Ascii.eqb_refl; reflexivity.
  - pose proof (bump_length_ge v [c] 1%Z); lia.
Qed.

Definition corpus_text (corpus : corpus_arg) : str :=
  match corpus with
  | CorpusList l => concat l
  | CorpusStr s => s
  end.

Lemma vocab_include t corpus :
  vocab (_include_corpus_chars t corpus)
  = fold_left (fun v c => bump v [c] 1%Z) (corpus_text corpus) (vocab t).
Proof. destruct corpus; reflexivity. Qed.

Lemma train_loop_vocab wl cw corpus n : forall fuel t temp t' temp',
  train_loop fuel wl cw corpus n t temp = Ok (t', temp') -> vocab t' = vocab t.
Proof.
  induction fuel as [|fuel IH]; intros t temp t' temp'; simpl.
  - destruct (zlen temp <? n)%Z; [discriminate|].
    intros E; injection E as <- _; reflexivity.
  - destruct (zlen temp <? n)%Z.
    + destruct (scan_corpus wl cw temp corpus []) as [wf| |]; simpl; try discriminate.
      destruct (Dict.is_empty wf).
      * intros E; injection E as <- _; apply vocab_set_vocab_size.
      * destruct (py_max wf) as [k| |]; simpl; try discriminate.
        destruct (subscript wf k) as [o| |]; simpl; try discriminate.
        apply IH.
    + intros E; injection E as <- _; reflexivity.
Qed.

Lemma wf_update_vocab t ext :
  NoDup (Dict.keys (vocab t)) -> has_default_chars (vocab t) -> wf (_update_vocab t ext).
Proof.
  intros ND HD; split.
  - rewrite vocab_update_vocab; apply NoDup_keys_update, ND.
  - apply synced_rebuild.
  - rewrite vocab_update_vocab; intros c I; apply mem_update_keep, HD, I.
Qed.

Lemma wf_rebuild t :
  NoDup (Dict.keys (vocab t)) -> has_default_chars (vocab t) -> wf (_rebuild_token_dict t).
Proof.
  intros ND HD; split; [rewrite vocab_rebuild; exact ND | apply synced_rebuild |].
  rewrite vocab_rebuild; exact HD.
Qed.

Lemma wf_train t corpus n wl t' :
  NoDup (Dict.keys (vocab t)) -> has_default_chars (vocab t) ->
  train t corpus n wl = Ok t' -> wf t'.
Proof.
  intros ND HD; unfold train, train_merge.
  destruct (train_loop _ _ _ _ _ _ _) as [[t1 temp]| |] eqn:TL; simpl; try discriminate.
  intros E; injection E as <-.
  apply train_loop_vocab in TL; rewrite vocab_include, vocab_set_vocab_size in TL.
  destruct (include_chars_fold (corpus_text corpus) (vocab t)) as [N [M _]].
  apply wf_update_vocab; rewrite TL; [apply N, ND|].
  intros c I; apply M, HD, I.
Qed.

Fixpoint nodupb (l : list str) : bool :=
  match l with
  | [] => true
  | x :: r => negb (existsb (str_eqb x) r) && nodupb r
  end.

Lemma nodupb_NoDup l : nodupb l = true -> NoDup l.
Proof.
  induction l as [|x r IH]; simpl; [constructor|].
  rewrite andb_true_iff, negb_true_iff; intros [N R]; constructor; [|apply IH, R].
  intros I; assert (existsb (str_eqb x) r = true); [|congruence].
  apply existsb_exists; exists x; split; [exact I | apply str_eqb_eq; reflexivity].
Qed.

Lemma has_default_chars_b v :
  forallb (Dict.mem v) _default_chars = true -> has_default_chars v.
Proof. intros F c I; rewrite forallb_forall in F; apply F, I. Qed.

Lemma init_vocab_nodup : NoDup (Dict.keys (vocab (_init_vocab blank))).
Proof. apply nodupb_NoDup; vm_compute; reflexivity. Qed.

Lemma init_vocab_default : has_default_chars (vocab (_init_vocab blank)).
Proof. apply has_default_chars_b; vm_compute; reflexivity. Qed.

Lemma wf_init c n vj t : __init__ c n vj = Ok t -> wf t.
Proof.
  unfold __init__.
  pose proof init_vocab_nodup as ND; pose proof init_vocab_default as HD.
  generalize dependent (_init_vocab blank); intros t0 ND HD.
  assert (R : wf (_rebuild_token_dict t0)) by (apply wf_rebuild; assumption).
  assert (T : forall n c, train (_set_vocab_size t0 n) c n true = Ok t -> wf t).
  { intros n' c'; apply wf_train; rewrite vocab_set_vocab_size; assumption. }
  cbv zeta.
  destruct vj as [[|kv ext]|], n as [n|], c as [c|];
    try (intros E; injection E as <-; first [exact R | apply wf_update_vocab; assumption]);
    destruct (negb (n =? 0)%Z && corpus_truthy (Some c));
    first [apply T | intros E; injection E as <-; exact R].
Qed.

Lemma instance_wf t : instance t -> wf t.
Proof.
  induction 1 as [c n vj t I | t c n wl t' _ IH T | t ext _ IH].
  - eapply wf_init, I.
  - destruct IH; eapply wf_train; eassumption.
  - destruct IH; apply wf_update_vocab; assumption.
Qed.

Lemma instance_unconfigured : instance unconfigured.
Proof. apply (inst_init None None None); reflexivity. Qed.

(** ** [encode] on an instance *)

Lemma wf_encoder t :
  wf t ->
  let enc := fst (rebuild_dicts (vocab t)) in
  encoder_dict t = Some enc /\ Dict.is_empty enc = false /\
  Dict.get enc _PAD = Some 0%Z /\ Dict.get enc _EOS = Some (-2)%Z /\
  Dict.get enc _UNK = Some (-999)%Z /\ Dict.get enc _SOS = Some (-1)%Z.
Proof.
  intros [ND [SE _] _]; cbn zeta; split; [exact SE|].
  rewrite (rebuild_dicts_closed _ ND); cbn [fst]; repeat split; reflexivity.
Qed.

Lemma encode_E t text :
  wf t -> encode t text 0 = Ok (E (vocab t) (fst (rebuild_dicts (vocab t))) text 0 0).
Proof.
  intros W; destruct (wf_encoder t W) as [SE [NE [P [Q [U _]]]]].
  unfold encode; rewrite SE; cbn [dict_missing dict_of bind]; rewrite NE.
  rewrite (encode_loop_E _ _ P Q U); reflexivity.
Qed.

(** ** Padding *)

Lemma extend_repeat (x : Z) (ks : list nat) : forall l,
  fold_left (fun acc _ => acc ++ [x]) ks l = l ++ repeat x (length ks).
Proof.
  induction ks as [|k ks IH]; intros l; simpl; [rewrite app_nil_r; reflexivity|].
  rewrite IH, <- app_assoc; reflexivity.
Qed.

(** C5.  On an instance, [pad] with [len(tokens) + 2 < desired_length]
    returns SOS, the tokens in order, EOS, then PAD entries, of length
    exactly [desired_length]; with [len(tokens) + 2 >= desired_length] it
    raises its capacity error and returns nothing. *)
Theorem pad_contract (t : tokenizer) (tokens : list Z) (desired_length : Z) :
  instance t ->
  ((zlen tokens + 2 < desired_length)%Z ->
     exists padded,
       pad t tokens desired_length = Ok padded /\
       padded = [(-1)%Z] ++ tokens ++ [(-2)%Z]
                ++ repeat 0%Z (Z.to_nat (desired_length - zlen tokens - 2)) /\
       zlen padded = desired_length) /\
  ((zlen tokens + 2 >= desired_length)%Z ->
     pad t tokens desired_length = Raise (CannotPad (length tokens) desired_length)).
Proof.
  intros I; destruct (wf_encoder t (instance_wf t I)) as [SE [_ [P [Q [_ S]]]]].
  unfold pad; rewrite SE; cbn [dict_of bind]; unfold subscript; rewrite S, Q, P; cbn [bind].
  split; intros L.
  - replace (zlen tokens + 2 >=? desired_length)%Z with false by (symmetry; rewrite Z.geb_leb; apply Z.leb_gt; lia).
    eexists; split; [reflexivity|].
    rewrite extend_repeat, length_seq.
    assert (Z1 : zlen (((-1)%Z :: tokens) ++ [(-2)%Z]) = (zlen tokens + 2)%Z).
    { unfold zlen; rewrite length_app; simpl; lia. }
    rewrite Z1.
    replace (desired_length - (zlen tokens + 2))%Z with (desired_length - zlen tokens - 2)%Z by lia.
    split.
    + simpl; rewrite <- app_assoc; reflexivity.
    + unfold zlen in *; rewrite !length_app, repeat_length in *; simpl in *; lia.
  - replace (zlen tokens + 2 >=? desired_length)%Z with true by (symmetry; rewrite Z.geb_leb; apply Z.leb_le; lia).
    reflexivity.
Qed.

Lemma pad_contract_witness :
  instance unconfigured /\
  ((zlen [1%Z; 2%Z] + 2 < 10)%Z ->
     exists padded,
       pad unconfigured [1%Z; 2%Z] 10 = Ok padded /\
       padded = [(-1)%Z] ++ [1%Z; 2%Z] ++ [(-2)%Z]
                ++ repeat 0%Z (Z.to_nat (10 - zlen [1%Z; 2%Z] - 2)) /\
       zlen padded = 10%Z) /\
  ((zlen [1%Z; 2%Z] + 2 >= 4)%Z ->
     pad unconfigured [1%Z; 2%Z] 4 = Raise (CannotPad (length [1%Z; 2%Z]) 4)).
Proof.
  split; [exact instance_unconfigured|]; split.
  - apply (pad_contract unconfigured [1%Z; 2%Z] 10 instance_unconfigured).
  - apply (pad_contract unconfigured [1%Z; 2%Z] 4 instance_unconfigured).
Defined.

(** ** The dictionaries are always built *)

Definition built (t : tokenizer) : Prop :=
  dict_missing (encoder_dict t) = false /\ dict_missing (decoder_dict t) = false.

(** Any call that changes the object, the private methods included. *)
Inductive reachable : tokenizer -> Prop :=
| reach_init c n vj t :
    __init__ c n vj = Ok t -> reachable t
| reach_train t c n wl t' :
    reachable t -> train t c n wl = Ok t' -> reachable t'
| reach_update_vocab t ext :
    reachable t -> reachable (_update_vocab t ext)
| reach_set_vocab_size t n :
    reachable t -> reachable (_set_vocab_size t n)
| reach_init_vocab t :
    reachable t -> reachable (_init_vocab t)
| reach_include_corpus_chars t corpus :
    reachable t -> reachable (_include_corpus_chars t corpus)
| reach_rebuild_token_dict t :
    reachable t -> reachable (_rebuild_token_dict t).

Lemma rebuild_loop_nonempty ks : forall enc dec i,
  Dict.is_empty enc = false -> Dict.is_empty dec = false ->
  Dict.is_empty (fst (rebuild_loop ks enc dec i)) = false /\
  Dict.is_empty (snd (rebuild_loop ks enc dec i)) = false.
Proof.
  induction ks as [|k ks IH]; intros enc dec i E D; simpl; [auto|].
  destruct (is_special k); [apply IH; assumption|].
  apply IH; [destruct enc as [|[? ?] ?] | destruct dec as [|[? ?] ?]]; try discriminate;
    simpl; match goal with |- context [if ?b then _ else _] => destruct b end; reflexivity.
Qed.

Lemma built_rebuild t : built (_rebuild_token_dict t).
Proof.
  unfold built, _rebuild_token_dict, rebuild_dicts.
  match goal with
  | |- context [rebuild_loop ?ks ?e ?d ?i] =>
      destruct (rebuild_loop_nonempty ks e d i eq_refl eq_refl) as [A B];
      destruct (rebuild_loop ks e d i) as [enc dec]
  end.
  simpl in *; auto.
Qed.

Lemma built_train t c n wl t' : train t c n wl = Ok t' -> built t'.
Proof.
  unfold train; destruct (train_merge t c n wl) as [r| |]; simpl; try discriminate.
  intros E; injection E as <-; apply built_rebuild.
Qed.

Lemma built_init c n vj t : __init__ c n vj = Ok t -> built t.
Proof.
  unfold __init__; generalize (_init_vocab blank); intros t0; cbv zeta.
  destruct vj as [[|kv ext]|], n as [n|], c as [c|];
    try (intros E; injection E as <-; apply built_rebuild);
    destruct (negb (n =? 0)%Z && corpus_truthy (Some c));
    first [apply built_train | intros E; injection E as <-; apply built_rebuild].
Qed.

Lemma built_set_vocab_size t n : built t -> built (_set_vocab_size t n).
Proof. unfold built, _set_vocab_size; destruct (n >=? zlen (vocab t))%Z; auto. Qed.

Lemma reachable_built t : reachable t -> built t.
Proof.
  induction 1 as [c n vj t I | t c n wl t' _ _ T | t ext _ _ | t n _ IH | t _ IH
                 | t corpus _ IH | t _ _].
  - eapply built_init, I.
  - eapply built_train, T.
  - apply built_rebuild.
  - apply built_set_vocab_size, IH.
  - unfold _init_vocab; apply built_set_vocab_size; exact IH.
  - exact IH.
  - apply built_rebuild.
Qed.

Lemma instance_reachable t : instance t -> reachable t.
Proof.
  induction 1; [eapply reach_init | eapply reach_train | eapply reach_update_vocab]; eauto.
Qed.

Lemma encode_iter_raises v enc text st e :
  encode_iter v enc text st = Raise e -> e = KeyError.
Proof.
  unfold encode_iter, subscript.
  repeat match goal with
         | |- context [if ?b then _ else _] => destruct b
         | |- context [match Dict.get ?d ?k with _ => _ end] => destruct (Dict.get d k)
         end; simpl; congruence.
Qed.

Lemma encode_loop_raises v enc text : forall fuel st e,
  encode_loop fuel v enc text st = Raise e -> e = KeyError.
Proof.
  induction fuel as [|fuel IH]; intros st e; simpl;
    destruct (st_j st <=? length text); try discriminate.
  destruct (encode_iter v enc text st) as [st'| e'|] eqn:I; simpl; try discriminate.
  - apply IH.
  - intros E; injection E as <-; eapply encode_iter_raises, I.
Qed.

Lemma pad_raises t tokens n e :
  pad t tokens n = Raise e -> e <> NoEncoderDict.
Proof.
  unfold pad, dict_of, subscript.
  destruct (encoder_dict t) as [enc|]; cbn [bind]; [|congruence].
  destruct (Dict.get enc _SOS); cbn [bind]; [|congruence].
  destruct (Dict.get enc _EOS); cbn [bind]; [|congruence].
  destruct (Dict.get enc _PAD); cbn [bind]; [|congruence].
  destruct (zlen tokens + 2 >=? n)%Z; congruence.
Qed.

Lemma decode_loop_raises dec : forall tokens decoded e,
  decode_loop dec tokens decoded = Raise e -> e = KeyError.
Proof.
  induction tokens as [|tok r IH]; intros decoded e; simpl; [discriminate|].
  unfold subscript; destruct (Dict.get dec tok); simpl; [apply IH | congruence].
Qed.

(** C10.  Whatever the constructor mode and whatever methods ran
    since, the encoder and decoder dictionaries of the object are built
    and non-empty, and neither [encode] nor [decode] takes its
    no-dictionary error branch. *)
Theorem dictionaries_always_built (t : tokenizer) :
  reachable t ->
  (exists enc dec,
     encoder_dict t = Some enc /\ decoder_dict t = Some dec /\ enc <> [] /\ dec <> []) /\
  (forall text pad_to_tokens, encode t text pad_to_tokens <> Raise NoEncoderDict) /\
  (forall tokens, _decode_chunks t tokens <> Raise NoDecoderDict) /\
  (forall tokens, decode t tokens <> Raise NoDecoderDict).
Proof.
  intros R; destruct (reachable_built t R) as [BE BD].
  unfold built, dict_missing in *.
  destruct (encoder_dict t) as [[|e0 enc]|] eqn:EE; try discriminate.
  destruct (decoder_dict t) as [[|d0 dec]|] eqn:DD; try discriminate.
  assert (DC : forall tokens, _decode_chunks t tokens <> Raise NoDecoderDict).
  { intros tokens; unfold _decode_chunks; rewrite DD; simpl Dict.is_empty; cbv iota.
    intros C; apply decode_loop_raises in C; discriminate. }
  repeat split.
  - exists (e0 :: enc), (d0 :: dec); repeat split; discriminate.
  - intros text p; unfold encode; rewrite EE; cbn [dict_missing Dict.is_empty dict_of bind].
    destruct (encode_loop _ _ _ _ _) as [toks|e|] eqn:L; cbn [bind]; try discriminate.
    + destruct (p >? 0)%Z; [|discriminate].
      intros C; apply pad_raises in C; congruence.
    + apply encode_loop_raises in L; subst e; discriminate.
  - exact DC.
  - intros tokens; unfold decode; specialize (DC tokens).
    destruct (_decode_chunks t tokens) as [c|e|]; simpl; congruence.
Qed.

Lemma dictionaries_always_built_witness :
  reachable unconfigured /\
  (exists enc dec,
     encoder_dict unconfigured = Some enc /\ decoder_dict unconfigured = Some dec /\
     enc <> [] /\ dec <> []) /\
  (forall text pad_to_tokens, encode unconfigured text pad_to_tokens <> Raise NoEncoderDict) /\
  (forall tokens, _decode_chunks unconfigured tokens <> Raise NoDecoderDict) /\
  (forall tokens, decode unconfigured tokens <> Raise NoDecoderDict).
Proof.
  assert (R : reachable unconfigured) by (apply (reach_init None None None); reflexivity).
  split; [exact R | apply (dictionaries_always_built unconfigured R)].
Defined.

(** ** Round trip *)

(** [toks] decode, one symbol per ID, to the pieces of [s]. *)
Inductive Decodes (dec : Dict.t Z str) : list Z -> str -> Prop :=
| Dec_nil : Decodes dec [] []
| Dec_cons tok w toks s :
    Dict.get dec tok = Some w -> Decodes dec toks s -> Decodes dec (tok :: toks) (w ++ s).

Lemma decode_loop_Decodes dec toks s :
  Decodes dec toks s ->
  forall decoded, exists chunks,
    decode_loop dec toks decoded = Ok (decoded ++ chunks) /\ concat chunks = s.
Proof.
  induction 1 as [|tok w toks s G _ IH]; intros decoded; simpl.
  - exists []; rewrite app_nil_r; auto.
  - unfold subscript; rewrite G; cbn [bind].
    destruct (IH (decoded ++ [w])) as [chunks [L C]].
    exists (w :: chunks); rewrite L, <- app_assoc; simpl; rewrite C; auto.
Qed.

Lemma decode_Decodes t toks s :
  wf t -> Decodes (snd (rebuild_dicts (vocab t))) toks s -> decode t toks = Ok s.
Proof.
  intros [ND [_ SD] _] D; unfold decode, _decode_chunks; rewrite SD.
  destruct (decode_loop_Decodes _ _ _ D []) as [chunks [L C]].
  rewrite L.
  rewrite (rebuild_dicts_closed _ ND); cbn [snd specials_dec app Dict.is_empty bind].
  rewrite C; reflexivity.
Qed.

Section RoundTrip.
Variables (v enc : Dict.t str Z) (dec : Dict.t Z str) (text : str).
Hypothesis covers : forall s, Dict.mem v s = true -> exists id, Dict.get enc s = Some id.
Hypothesis inverse : forall s id, Dict.get enc s = Some id -> Dict.get dec id = Some s.
Hypothesis dec_PAD : Dict.get dec 0%Z = Some _PAD.
Hypothesis dec_EOS : Dict.get dec (-2)%Z = Some _EOS.
Hypothesis chars_known : forall k, k < length text -> Dict.mem v (char_at text k) = true.

Lemma known_token w : Dict.mem v w = true -> Dict.get dec (tok_of enc w) = Some w.
Proof.
  intros M; destruct (covers w M) as [id G]; unfold tok_of; rewrite G; apply inverse, G.
Qed.

Lemma roundtrip_E : forall n i j,
  measure text i j < n -> i <= length text -> j <= length text ->
  (j <= i + 1 \/ (at_marker text i = None /\ Dict.mem v (slice text i j) = true)) ->
  Decodes dec (E v enc text i j) (skipn i text).
Proof.
  induction n as [|n IH]; intros i j Hm Hi Hj Inv; [lia|].
  rewrite E_unfold.
  replace (length text <? j) with false by (symmetry; apply Nat.ltb_ge; exact Hj).
  destruct (at_marker text i) as [m|] eqn:A.
  - destruct (at_marker_skipn _ _ _ A) as [mk [r [D S]]].
    assert (R : r = skipn (i + 7) text).
    { rewrite Nat.add_comm, <- skipn_skipn, S.
      destruct D as [[-> _]|[-> _]]; reflexivity. }
    rewrite S, R; constructor.
    + destruct D as [[-> ->]|[-> ->]]; assumption.
    + pose proof (measure_marker _ _ j _ A); pose proof (at_marker_bound _ _ _ A).
      apply IH; try lia.
      destruct Inv as [L|[C _]]; [left; lia | congruence].
  - destruct (j <? length text) eqn:J.
    + apply Nat.ltb_lt in J.
      pose proof (measure_body text i i j Hj); pose proof (measure_body text i j j Hj).
      destruct (Dict.mem v (slice text i j ++ char_at text j)) eqn:M.
      * apply IH; try lia.
        destruct (Nat.lt_ge_cases j i) as [L|L]; [left; lia|right].
        split; [exact A|].
        replace (j + 1) with (S j) by lia; rewrite <- slice_snoc by lia; exact M.
      * assert (L : i < j).
        { destruct (Nat.lt_ge_cases i j) as [L|L]; [exact L|].
          rewrite (slice_empty text i j L) in M; cbn [app] in M.
          rewrite chars_known in M by exact J; discriminate. }
        assert (K : Dict.mem v (slice text i j) = true).
        { destruct Inv as [L'|[_ K]]; [|exact K].
          replace j with (S i) by lia; rewrite slice_single; apply chars_known; lia. }
        rewrite (slice_skipn text i j) by lia.
        constructor; [apply known_token, K|].
        apply IH; try lia.
    + apply Nat.ltb_ge in J; assert (j = length text) by lia; subst j.
      rewrite slice_to_end.
      destruct (str_eqb (skipn i text) []) eqn:Z.
      * apply str_eqb_eq in Z; rewrite Z; constructor.
      * assert (NE : skipn i text <> []).
        { intros C; rewrite C in Z; discriminate. }
        assert (L : i < length text).
        { destruct (Nat.lt_ge_cases i (length text)) as [L|L]; [exact L|].
          rewrite skipn_all2 in NE by exact L; congruence. }
        assert (K : Dict.mem v (skipn i text) = true).
        { destruct Inv as [L'|[_ K]]; [|rewrite <- slice_to_end; exact K].
          rewrite <- slice_to_end; replace (length text) with (S i) by lia.
          rewrite slice_single; apply chars_known; lia. }
        rewrite <- (app_nil_r (skipn i text)) at 2.
        constructor; [apply known_token, K | constructor].
Qed.
End RoundTrip.

(** C1, amended.  On an instance, for every text each of whose
    characters is itself a symbol of the table (for example, text over
    the base alphabet), [encode] returns a token sequence that [decode]
    turns back into the text. *)
Theorem encode_decode_roundtrip (t : tokenizer) (text : str) :
  instance t ->
  (forall c, In c text -> Dict.mem (vocab t) [c] = true) ->
  exists tokens, encode t text 0 = Ok tokens /\ decode t tokens = Ok text.
Proof.
  intros I Hc; pose proof (instance_wf t I) as W.
  exists (E (vocab t) (fst (rebuild_dicts (vocab t))) text 0 0).
  split; [apply encode_E, W|].
  apply decode_Decodes; [exact W|].
  destruct W as [ND _ _].
  change text with (skipn 0 text) at 2.
  apply roundtrip_E with (n := S (measure text 0 0)); try lia.
  - intros s M; apply rebuild_covers; assumption.
  - intros s id G; apply rebuild_inverse; assumption.
  - rewrite (rebuild_dicts_closed _ ND); reflexivity.
  - rewrite (rebuild_dicts_closed _ ND); reflexivity.
  - intros k L; unfold char_at; destruct (nth_error text k) eqn:N.
    + apply Hc; eapply nth_error_In, N.
    + apply nth_error_None in N; lia.
Qed.

Lemma encode_decode_roundtrip_witness :
  instance unconfigured /\
  (forall c, In c (lit "to be"%string) -> Dict.mem (vocab unconfigured) [c] = true) /\
  exists tokens,
    encode unconfigured (lit "to be"%string) 0 = Ok tokens /\
    decode unconfigured tokens = Ok (lit "to be"%string).
Proof.
  assert (H : forall c, In c (lit "to be"%string) -> Dict.mem (vocab unconfigured) [c] = true).
  { intros c I; simpl in I.
    repeat (destruct I as [<-|I]; [vm_compute; reflexivity|]); destruct I. }
  split; [exact instance_unconfigured|]; split; [exact H|].
  apply (encode_decode_roundtrip unconfigured _ instance_unconfigured H).
Defined.

(** ** One pass of the merge search *)

(** The candidates one unit records, in the order the scan meets them. *)
Fixpoint scan_trace (fuel : nat) (_temp_vocab : Dict.t str Z) (text : str) (i j : nat)
  : list str :=
  if (j <? length text) && (2 <? length text) then
    match fuel with
    | 0 => []
    | S fuel' =>
        let w := slice text i j ++ char_at text j in
        if Dict.mem _temp_vocab w
        then scan_trace fuel' _temp_vocab text i (j + 1)
        else w :: scan_trace fuel' _temp_vocab text j (j + 1)
    end
  else [].

(** The weight of a unit: its word count, or 1 for a whole line. *)
Definition unit_weight (word_level : bool) (_counted_words : Dict.t str Z) (text : str) : Z :=
  if word_level then get_or_zero _counted_words text else 1%Z.

(** The candidate occurrences of a whole pass, each with the weight of
    its unit, in corpus-unit order and then scan order. *)
Definition corpus_trace (word_level : bool) (_counted_words _temp_vocab : Dict.t str Z)
    (corpus : list str) : list (str * Z) :=
  flat_map (fun text =>
              map (fun w => (w, unit_weight word_level _counted_words text))
                  (scan_trace (length text) _temp_vocab text 0 1))
           corpus.

Definition tally_into (d : Dict.t str Z) (occ : list (str * Z)) : Dict.t str Z :=
  fold_left (fun d o => bump d (fst o) (snd o)) occ d.

(** The tally of a candidate: the sum of the weights of its occurrences. *)
Fixpoint tally (occ : list (str * Z)) (k : str) : Z :=
  match occ with
  | [] => 0%Z
  | (w, inc) :: r => ((if str_eqb w k then inc else 0) + tally r k)%Z
  end.

Lemma scan_loop_trace temp text inc : forall fuel i j wf,
  length text - j <= fuel ->
  scan_loop fuel temp text inc i j wf
  = Ok (tally_into wf (map (fun w => (w, inc)) (scan_trace fuel temp text i j))).
Proof.
  induction fuel as [|fuel IH]; intros i j wf L; simpl.
  - destruct (j <? length text) eqn:J; [apply Nat.ltb_lt in J; lia | reflexivity].
  - destruct ((j <? length text) && (2 <? length text)) eqn:C; [|reflexivity].
    apply andb_true_iff in C as [J _]; apply Nat.ltb_lt in J.
    destruct (Dict.mem temp (slice text i j ++ char_at text j)).
    + apply IH; lia.
    + rewrite IH by lia; reflexivity.
Qed.

Lemma scan_trace_fresh temp text : forall fuel i j w,
  In w (scan_trace fuel temp text i j) -> Dict.mem temp w = false.
Proof.
  induction fuel as [|fuel IH]; intros i j w; simpl.
  - destruct ((j <? length text) && (2 <? length text)); intros [].
  - destruct ((j <? length text) && (2 <? length text)); [|intros []].
    destruct (Dict.mem temp (slice text i j ++ char_at text j)) eqn:M.
    + apply IH.
    + intros [<-|I]; [exact M | eapply IH, I].
Qed.

Lemma tally_into_app d o1 o2 : tally_into d (o1 ++ o2) = tally_into (tally_into d o1) o2.
Proof. apply fold_left_app. Qed.

Lemma subscript_get_or_zero (d : Dict.t str Z) k :
  Dict.mem d k = true -> subscript d k = Ok (get_or_zero d k).
Proof.
  unfold Dict.mem, subscript, get_or_zero; destruct (Dict.get d k); [reflexivity|discriminate].
Qed.

Lemma scan_corpus_trace wl cw temp : forall corpus wf,
  (wl = true -> forall text, In text corpus -> Dict.mem cw text = true) ->
  scan_corpus wl cw temp corpus wf = Ok (tally_into wf (corpus_trace wl cw temp corpus)).
Proof.
  induction corpus as [|text rest IH]; intros wf H; simpl; [reflexivity|].
  assert (W : (if wl then subscript cw text else Ok 1%Z) = Ok (unit_weight wl cw text)).
  { unfold unit_weight; destruct wl; [|reflexivity].
    apply subscript_get_or_zero, H; [reflexivity | left; reflexivity]. }
  rewrite W; cbn [bind]; rewrite scan_loop_trace by lia; cbn [bind].
  rewrite IH by (intros E x I; apply H; [exact E | right; exact I]).
  unfold corpus_trace; simpl; rewrite tally_into_app; reflexivity.
Qed.

Lemma corpus_trace_fresh wl cw temp corpus w inc :
  In (w, inc) (corpus_trace wl cw temp corpus) -> Dict.mem temp w = false.
Proof.
  unfold corpus_trace; rewrite in_flat_map; intros [text [_ I]].
  apply in_map_iff in I as [w' [E I]]; injection E as -> _.
  eapply scan_trace_fresh, I.
Qed.

Lemma units_counted wl corpus :
  wl = true -> forall text, In text (corpus_units wl corpus) ->
  Dict.mem (counted_words wl corpus) text = true.
Proof.
  intros -> text; unfold corpus_units, counted_words; apply mem_keys.
Qed.

(** Facts on tallies. *)

Lemma bump_get (d : Dict.t str Z) k k' inc :
  get_or_zero (bump d k inc) k' = ((if str_eqb k k' then inc else 0) + get_or_zero d k')%Z.
Proof.
  unfold get_or_zero, bump.
  destruct (str_eqb k k') eqn:E.
  - apply str_eqb_eq in E; subst k'.
    destruct (Dict.get d k) as [n|]; rewrite get_set_same; lia.
  - assert (N : k <> k') by (intros ->; rewrite (proj2 (str_eqb_eq k' k') eq_refl) in E; discriminate).
    destruct (Dict.get d k) as [n|]; rewrite (get_set_other _ _ _ _ N); lia.
Qed.

Lemma tally_into_get occ : forall d k,
  get_or_zero (tally_into d occ) k = (get_or_zero d k + tally occ k)%Z.
Proof.
  induction occ as [|[w inc] r IH]; intros d k; simpl; [lia|].
  unfold tally_into in *; simpl; rewrite IH, bump_get; lia.
Qed.

Lemma bump_keys (d : Dict.t str Z) k inc :
  Dict.keys (bump d k inc) = if Dict.mem d k then Dict.keys d else Dict.keys d ++ [k].
Proof.
  unfold bump, Dict.mem; destruct (Dict.get d k) eqn:G.
  - apply keys_set_mem; unfold Dict.mem; rewrite G; reflexivity.
  - rewrite keys_set; unfold Dict.mem; rewrite G; reflexivity.
Qed.

Lemma tally_into_keys occ : forall d,
  exists more,
    Dict.keys (tally_into d occ) = Dict.keys d ++ more /\
    (forall k, In k more -> In k (map fst occ)) /\
    (forall k, In k (map fst occ) -> In k (Dict.keys d ++ more)).
Proof.
  induction occ as [|[w inc] r IH]; intros d.
  - exists []; simpl; rewrite app_nil_r; repeat split; tauto.
  - destruct (IH (bump d w inc)) as [more [K [A B]]].
    unfold tally_into in *; simpl; rewrite K, bump_keys.
    destruct (Dict.mem d w) eqn:M.
    + exists more; repeat split; [intros k I; right; apply A, I|].
      intros k [<-|I]; [|rewrite bump_keys, M in B; apply B, I].
      apply in_app_iff; left; apply mem_keys, M.
    + exists (w :: more); rewrite <- app_assoc; repeat split.
      * intros k [<-|I]; [left; reflexivity | right; apply A, I].
      * intros k [<-|I]; [apply in_app_iff; right; left; reflexivity|].
        rewrite bump_keys, M, <- app_assoc in B; apply B, I.
Qed.

Lemma tally_into_nodup occ : forall d,
  NoDup (Dict.keys d) -> NoDup (Dict.keys (tally_into d occ)).
Proof.
  induction occ as [|[w inc] r IH]; intros d ND; [exact ND|].
  apply IH, bump_keys_nodup, ND.
Qed.

Lemma tally_into_nonempty occ : forall d,
  Dict.is_empty (tally_into d occ) = true -> occ = [] /\ d = [].
Proof.
  intros d Em; destruct (tally_into_keys occ d) as [more [K [A B]]].
  destruct (tally_into d occ); [|discriminate]; simpl in K.
  symmetry in K; apply app_eq_nil in K as [Kd ->].
  split; [|destruct d; [reflexivity|discriminate]].
  destruct occ as [|[w inc] r]; [reflexivity|].
  specialize (B w (or_introl eq_refl)); rewrite Kd in B; destruct B.
Qed.

(** [max] returns the first key whose value no other key exceeds. *)
Lemma max_from_first (key : str -> Z) : forall ks pre best mid,
  (forall k, In k pre -> (key k < key best)%Z) ->
  (forall k, In k mid -> (key k <= key best)%Z) ->
  exists l1 l2,
    pre ++ best :: mid ++ ks = l1 ++ max_from key ks best :: l2 /\
    (forall k, In k l1 -> (key k < key (max_from key ks best))%Z) /\
    (forall k, In k l2 -> (key k <= key (max_from key ks best))%Z).
Proof.
  induction ks as [|k ks IH]; intros pre best mid P M; simpl.
  - exists pre, mid; rewrite app_nil_r; auto.
  - destruct (key best <? key k)%Z eqn:C.
    + apply Z.ltb_lt in C.
      destruct (IH (pre ++ best :: mid) k []) as [l1 [l2 [E [A B]]]].
      * intros x I; apply in_app_iff in I as [I|[<-|I]];
          [specialize (P x I) | | specialize (M x I)]; lia.
      * intros x [].
      * exists l1, l2; rewrite <- E, <- app_assoc; auto.
    + apply Z.ltb_ge in C.
      destruct (IH pre best (mid ++ [k])) as [l1 [l2 [E [A B]]]].
      * exact P.
      * intros x I; apply in_app_iff in I as [I|[<-|[]]]; [apply M, I | exact C].
      * exists l1, l2; rewrite <- E, <- app_assoc; auto.
Qed.

Lemma py_max_first (d : Dict.t str Z) :
  Dict.is_empty d = false ->
  exists best l1 l2,
    py_max d = Ok best /\
    Dict.keys d = l1 ++ best :: l2 /\
    (forall k, In k l1 -> (get_or_zero d k < get_or_zero d best)%Z) /\
    (forall k, In k l2 -> (get_or_zero d k <= get_or_zero d best)%Z).
Proof.
  intros NE; unfold py_max; destruct d as [|[k0 v0] r]; [discriminate|].
  cbn [Dict.keys map fst].
  destruct (max_from_first (get_or_zero ((k0, v0) :: r)) (map fst r) [] k0 [])
    as [l1 [l2 [E [A B]]]]; try (intros x []).
  exists (max_from (get_or_zero ((k0, v0) :: r)) (map fst r) k0), l1, l2; auto.
Qed.

Lemma nodup_split_unique (l1 l2 l1' l2' : list str) b :
  NoDup (l1 ++ b :: l2) -> l1 ++ b :: l2 = l1' ++ b :: l2' -> l1 = l1'.
Proof.
  revert l1'; induction l1 as [|x l1 IH]; intros [|y l1'] ND E; simpl in *.
  - reflexivity.
  - injection E as Eb E; inversion ND as [|? ? NI _]; subst.
    exfalso; apply NI; apply in_app_iff; right; left; reflexivity.
  - injection E as Eb E; inversion ND as [|? ? NI _]; subst.
    exfalso; apply NI; apply in_app_iff; right; left; reflexivity.
  - injection E as Eb E; inversion ND; subst; f_equal; eapply IH; eassumption.
Qed.


(** ** One iteration of the merge loop *)

Lemma train_iteration wl cw corpus n temp :
  (wl = true -> forall text, In text corpus -> Dict.mem cw text = true) ->
  (zlen temp < n)%Z ->
  let occ := corpus_trace wl cw temp corpus in
  (occ = [] /\
   forall t fuel,
     train_loop (S fuel) wl cw corpus n t temp = Ok (_set_vocab_size t (zlen temp), temp))
  \/
  (exists best l1 l2,
     Dict.keys (tally_into [] occ) = l1 ++ best :: l2 /\
     (forall k, In k l1 -> (tally occ k < tally occ best)%Z) /\
     (forall k, In k l2 -> (tally occ k <= tally occ best)%Z) /\
     In best (map fst occ) /\
     Dict.mem temp best = false /\
     forall t fuel,
       train_loop (S fuel) wl cw corpus n t temp
       = train_loop fuel wl cw corpus n t (Dict.set temp best (tally occ best))).
Proof.
  intros Hcw Hlt occ.
  assert (G : forall k, get_or_zero (tally_into [] occ) k = tally occ k).
  { intros k; rewrite tally_into_get; reflexivity. }
  apply Z.ltb_lt in Hlt.
  assert (U : forall t fuel,
             train_loop (S fuel) wl cw corpus n t temp
             = (if Dict.is_empty (tally_into [] occ)
                then Ok (_set_vocab_size t (zlen temp), temp)
                else best_pair_str <- py_max (tally_into [] occ) ;;
                     occurences <- (k <- py_max (tally_into [] occ) ;;
                                    subscript (tally_into [] occ) k) ;;
                     train_loop fuel wl cw corpus n t
                       (Dict.set temp best_pair_str occurences))).
  { intros t fuel; cbn [train_loop]; rewrite Hlt.
    rewrite (scan_corpus_trace wl cw temp corpus [] Hcw); reflexivity. }
  destruct (Dict.is_empty (tally_into [] occ)) eqn:Em.
  - left; split; [apply (tally_into_nonempty occ [] Em) | exact U].
  - right; destruct (py_max_first _ Em) as [best [l1 [l2 [PM [K [A B]]]]]].
    exists best, l1, l2.
    assert (Ik : In best (Dict.keys (tally_into [] occ)))
      by (rewrite K; apply in_app_iff; right; left; reflexivity).
    assert (Io : In best (map fst occ)).
    { destruct (tally_into_keys occ []) as [more [K' [A' _]]].
      rewrite K' in Ik; apply A', Ik. }
    repeat split; try assumption.
    + intros k I; rewrite <- !G; apply A, I.
    + intros k I; rewrite <- !G; apply B, I.
    + apply in_map_iff in Io as [[w inc] [E I]]; simpl in E; subst w.
      eapply corpus_trace_fresh, I.
    + intros t fuel; rewrite U, PM; cbn [bind].
      rewrite (subscript_get_or_zero _ _ (proj2 (mem_keys _ _) Ik)), G; reflexivity.
Qed.

Lemma first_encounter occ best l1 l2 o1 w o2 :
  Dict.keys (tally_into [] occ) = l1 ++ best :: l2 ->
  occ = o1 ++ (best, w) :: o2 ->
  ~ In best (map fst o1) ->
  forall k, In k (map fst o1) -> In k l1.
Proof.
  intros K E NI k I.
  assert (ND : NoDup (Dict.keys (tally_into [] occ))) by (apply tally_into_nodup; constructor).
  destruct (tally_into_keys o1 []) as [m1 [K1 [A1 B1]]]; simpl in K1, B1.
  assert (K' : exists m2, Dict.keys (tally_into [] occ) = m1 ++ best :: m2).
  { rewrite E, tally_into_app; cbn [tally_into fold_left fst snd]; fold (tally_into (bump (tally_into [] o1) best w) o2).
    destruct (tally_into_keys o2 (bump (tally_into [] o1) best w)) as [m2 [K2 _]].
    exists m2; rewrite K2, bump_keys.
    replace (Dict.mem (tally_into [] o1) best) with false.
    - rewrite K1, <- app_assoc; reflexivity.
    - symmetry; apply mem_false_keys; rewrite K1; intros C; apply NI, A1, C. }
  destruct K' as [m2 K'].
  rewrite K in ND; rewrite K in K'.
  rewrite (nodup_split_unique l1 l2 m1 m2 best ND K'); apply B1, I.
Qed.

(** C4.  In an iteration of the merge loop whose pass found candidates,
    the candidate inserted has the highest tally, every candidate met
    before its first occurrence (in corpus-unit order, then scan order)
    has a strictly lower tally, and it is inserted with its tally as its
    frequency.  Training on the one unit "aaab" with word_level false
    and a target one above the initial size adds exactly "aa", with
    frequency 2. *)
Theorem merge_selection :
  (forall (corpus : corpus_arg) (word_level : bool) (desired_vocab_size : Z)
          (t : tokenizer) (_temp_vocab : Dict.t str Z) (fuel : nat),
     let cw := counted_words word_level corpus in
     let units := corpus_units word_level corpus in
     let occ := corpus_trace word_level cw _temp_vocab units in
     (zlen _temp_vocab < desired_vocab_size)%Z ->
     occ <> [] ->
     exists best,
       In best (map fst occ) /\
       (forall k, In k (map fst occ) -> (tally occ k <= tally occ best)%Z) /\
       (forall o1 w o2 k,
          occ = o1 ++ (best, w) :: o2 -> ~ In best (map fst o1) ->
          In k (map fst o1) -> (tally occ k < tally occ best)%Z) /\
       train_loop (S fuel) word_level cw units desired_vocab_size t _temp_vocab
       = train_loop fuel word_level cw units desired_vocab_size t
           (Dict.set _temp_vocab best (tally occ best))) /\
  (exists t',
     train unconfigured (CorpusStr (lit "aaab"%string))
       (zlen (vocab unconfigured) + 1) false = Ok t' /\
     vocab t' = vocab unconfigured ++ [(lit "aa"%string, 2%Z)]).
Proof.
  split.
  - intros corpus wl n t temp fuel cw units occ Hlt NE.
    destruct (train_iteration wl cw units n temp (units_counted wl corpus) Hlt)
      as [[C _]|[best [l1 [l2 [K [A [B [Io [_ T]]]]]]]]]; [contradiction|].
    fold occ in K, A, B, Io, T.
    exists best; repeat split; try assumption; [| |apply T].
    + intros k I.
      destruct (tally_into_keys occ []) as [more [K' [_ B']]].
      specialize (B' k I); rewrite <- K', K in B'.
      apply in_app_iff in B' as [I1|[<-|I2]]; [specialize (A k I1) | | apply B, I2]; lia.
    + intros o1 w o2 k E NI I; apply A; eapply first_encounter; eassumption.
  - eexists; split; vm_compute; reflexivity.
Qed.

Lemma merge_selection_witness :
  (zlen (vocab unconfigured) < 100)%Z /\
  corpus_trace false (counted_words false (CorpusStr (lit "aaab"%string)))
    (vocab unconfigured) (corpus_units false (CorpusStr (lit "aaab"%string))) <> [] /\
  exists best,
    train_loop 1 false [] [lit "aaab"%string] 100 unconfigured (vocab unconfigured)
    = train_loop 0 false [] [lit "aaab"%string] 100 unconfigured
        (Dict.set (vocab unconfigured) best 2%Z).
Proof.
  assert (L : (zlen (vocab unconfigured) < 100)%Z) by (vm_compute; reflexivity).
  assert (N : corpus_trace false (counted_words false (CorpusStr (lit "aaab"%string)))
                (vocab unconfigured) (corpus_units false (CorpusStr (lit "aaab"%string)))
              <> []) by (vm_compute; discriminate).
  split; [exact L|]; split; [exact N|].
  destruct (proj1 merge_selection (CorpusStr (lit "aaab"%string)) false 100%Z unconfigured
              (vocab unconfigured) 0 L N) as [best [_ [_ [_ T]]]].
  exists (lit "aa"%string); vm_compute; reflexivity.
Defined.

(** ** The merge loop as a whole *)

Lemma train_loop_spec wl cw corpus n :
  (wl = true -> forall text, In text corpus -> Dict.mem cw text = true) ->
  forall fuel temp,
    (n - zlen temp <= Z.of_nat fuel)%Z ->
    exists merges,
      (forall t, exists t',
         train_loop fuel wl cw corpus n t temp = Ok (t', temp ++ merges) /\
         vocab t' = vocab t) /\
      (zlen (temp ++ merges) <= Z.max n (zlen temp))%Z.
Proof.
  intros Hcw; induction fuel as [|fuel IH]; intros temp L.
  - exists []; rewrite app_nil_r; split; [|lia].
    intros t; exists t; split; [|reflexivity].
    cbn [train_loop]; replace (zlen temp <? n)%Z with false; [reflexivity|].
    symmetry; apply Z.ltb_ge; lia.
  - destruct (Z.ltb_spec (zlen temp) n) as [Hlt|Hge].
    + destruct (train_iteration wl cw corpus n temp Hcw Hlt)
        as [[_ T]|[best [_ [_ [_ [_ [_ [_ [F T]]]]]]]]].
      * exists []; rewrite app_nil_r; split; [|lia].
        intros t; exists (_set_vocab_size t (zlen temp)); split; [apply T|].
        apply vocab_set_vocab_size.
      * set (o := tally (corpus_trace wl cw temp corpus) best) in *.
        assert (S1 : Dict.set temp best o = temp ++ [(best, o)]) by (apply set_fresh, F).
        assert (Z1 : zlen (temp ++ [(best, o)]) = (zlen temp + 1)%Z).
        { unfold zlen; rewrite length_app; simpl; lia. }
        destruct (IH (temp ++ [(best, o)])) as [merges [R B]]; [lia|].
        exists ((best, o) :: merges).
        replace (temp ++ (best, o) :: merges) with ((temp ++ [(best, o)]) ++ merges)
          by (rewrite <- app_assoc; reflexivity).
        split; [|lia].
        intros t; rewrite T, S1; apply R.
    + exists []; rewrite app_nil_r; split; [|lia].
      intros t; exists t; split; [|reflexivity].
      cbn [train_loop]; replace (zlen temp <? n)%Z with false; [reflexivity|].
      symmetry; apply Z.ltb_ge; lia.
Qed.

Lemma train_merge_spec t corpus n wl :
  exists merges,
    (forall t0, vocab t0 = vocab t ->
       exists t', train_merge t0 corpus n wl = Ok (t', vocab t ++ merges) /\
                  vocab t' = vocab (_include_corpus_chars t corpus)) /\
    (zlen (vocab t ++ merges) <= Z.max n (zlen (vocab t)))%Z.
Proof.
  destruct (train_loop_spec wl (counted_words wl corpus) (corpus_units wl corpus) n
              (units_counted wl corpus) (train_fuel (vocab t) n) (vocab t))
    as [merges [R B]]; [unfold train_fuel; lia|].
  exists merges; split; [|exact B].
  intros t0 E; unfold train_merge; rewrite E.
  destruct (R (_include_corpus_chars (_set_vocab_size t0 n) corpus)) as [t' [T V]].
  exists t'; split; [exact T|].
  rewrite V, !vocab_include, !vocab_set_vocab_size, E; reflexivity.
Qed.

Lemma update_vocab_ext a b ext : vocab a = vocab b -> _update_vocab a ext = _update_vocab b ext.
Proof.
  intros E; unfold _update_vocab, _rebuild_token_dict, _set_vocab_size, set_vocab_field,
    set_vocab_size_field; simpl; rewrite E.
  destruct (_ >=? _)%Z; simpl; destruct (rebuild_dicts _); reflexivity.
Qed.

(** C8.  [train] always returns: every iteration of the merge loop
    entered below the target either takes the early exit (no candidate
    found) or inserts a candidate that was not in the working table,
    which grows by one. *)
Theorem train_terminates (t : tokenizer) (corpus : corpus_arg) (desired_vocab_size : Z)
    (word_level : bool) :
  (exists t', train t corpus desired_vocab_size word_level = Ok t') /\
  (forall _temp_vocab,
     (zlen _temp_vocab < desired_vocab_size)%Z ->
     let cw := counted_words word_level corpus in
     let units := corpus_units word_level corpus in
     (forall t0 fuel,
        train_loop (S fuel) word_level cw units desired_vocab_size t0 _temp_vocab
        = Ok (_set_vocab_size t0 (zlen _temp_vocab), _temp_vocab))
     \/
     (exists best occurences,
        Dict.mem _temp_vocab best = false /\
        length (Dict.set _temp_vocab best occurences) = S (length _temp_vocab) /\
        forall t0 fuel,
          train_loop (S fuel) word_level cw units desired_vocab_size t0 _temp_vocab
          = train_loop fuel word_level cw units desired_vocab_size t0
              (Dict.set _temp_vocab best occurences))).
Proof.
  split.
  - destruct (train_merge_spec t corpus desired_vocab_size word_level) as [merges [R _]].
    destruct (R t eq_refl) as [t' [T _]].
    unfold train; rewrite T; cbn [bind]; eauto.
  - intros temp Hlt cw units.
    destruct (train_iteration word_level cw units desired_vocab_size temp
                (units_counted word_level corpus) Hlt)
      as [[_ T]|[best [_ [_ [_ [_ [_ [_ [F T]]]]]]]]]; [left; exact T|right].
    exists best, (tally (corpus_trace word_level cw temp units) best).
    split; [exact F|]; split; [|exact T].
    rewrite length_set, F; reflexivity.
Qed.

(** C9.  Training is a function of the table, the corpus, the target
    size and the flag: two runs from objects with the same table return
    the same object (same symbols in the same order, same frequencies,
    same ID mapping) and the same working table, whose entries past the
    initial ones are the merges in insertion order. *)
Theorem train_deterministic (t1 t2 : tokenizer) (corpus : corpus_arg)
    (desired_vocab_size : Z) (word_level : bool) :
  vocab t1 = vocab t2 ->
  exists t' s1 s2 merges,
    train_merge t1 corpus desired_vocab_size word_level = Ok (s1, vocab t1 ++ merges) /\
    train_merge t2 corpus desired_vocab_size word_level = Ok (s2, vocab t1 ++ merges) /\
    train t1 corpus desired_vocab_size word_level = Ok t' /\
    train t2 corpus desired_vocab_size word_level = Ok t'.
Proof.
  intros E.
  destruct (train_merge_spec t1 corpus desired_vocab_size word_level) as [merges [R _]].
  destruct (R t1 eq_refl) as [s1 [T1 V1]].
  destruct (R t2 (eq_sym E)) as [s2 [T2 V2]].
  exists (_update_vocab s1 (vocab t1 ++ merges)), s1, s2, merges.
  repeat split; try assumption; unfold train.
  - rewrite T1; reflexivity.
  - rewrite T2; cbn [bind fst snd]; f_equal; apply update_vocab_ext; congruence.
Qed.

Lemma train_deterministic_witness :
  vocab unconfigured = vocab (set_vocab_size_field unconfigured (Some 7%Z)) /\
  exists t' s1 s2 merges,
    train_merge unconfigured (CorpusStr (lit "aaab"%string)) 101 false
    = Ok (s1, vocab unconfigured ++ merges) /\
    train_merge (set_vocab_size_field unconfigured (Some 7%Z))
      (CorpusStr (lit "aaab"%string)) 101 false
    = Ok (s2, vocab unconfigured ++ merges) /\
    train unconfigured (CorpusStr (lit "aaab"%string)) 101 false = Ok t' /\
    train (set_vocab_size_field unconfigured (Some 7%Z))
      (CorpusStr (lit "aaab"%string)) 101 false = Ok t'.
Proof.
  split; [reflexivity|].
  apply (train_deterministic unconfigured (set_vocab_size_field unconfigured (Some 7%Z))
           (CorpusStr (lit "aaab"%string)) 101 false eq_refl).
Defined.

(** ** Size of the table after training *)

Lemma length_update_known (ext d : Dict.t str Z) :
  (forall k, In k (Dict.keys ext) -> Dict.mem d k = true) ->
  length (dict_update d ext) = length d.
Proof.
  unfold dict_update; revert d; induction ext as [|[k v] r IH]; intros d H; simpl; [reflexivity|].
  rewrite IH.
  - rewrite length_set, H; [reflexivity | left; reflexivity].
  - intros k' I; rewrite mem_set, (H k'); [apply orb_true_r | right; exact I].
Qed.

Lemma length_update_le (ext d : Dict.t str Z) :
  length (dict_update d ext) <= length d + length ext.
Proof.
  unfold dict_update; revert d; induction ext as [|[k v] r IH]; intros d; simpl; [lia|].
  pose proof (IH (Dict.set d k v)); pose proof (length_set_le d k v); lia.
Qed.

Lemma dict_update_app (d a b : Dict.t str Z) :
  dict_update d (a ++ b) = dict_update (dict_update d a) b.
Proof. apply fold_left_app. Qed.

Lemma include_known_length (cs : str) : forall v : Dict.t str Z,
  (forall c, In c cs -> Dict.mem v [c] = true) ->
  length (fold_left (fun v c => bump v [c] 1%Z) cs v) = length v.
Proof.
  induction cs as [|c cs IH]; intros v H; simpl; [reflexivity|].
  assert (M : Dict.mem v [c] = true) by (apply H; left; reflexivity).
  rewrite IH.
  - rewrite <- !(length_map fst); change (map fst) with (@Dict.keys str Z).
    rewrite bump_keys, M; reflexivity.
  - intros c' I; rewrite bump_mem, (H c'); [apply orb_true_r | right; exact I].
Qed.

(** C3, amended.  [train] returns, the table never shrinks, and its
    size is at most the larger of the requested target and the initial
    size, plus the number of corpus characters that were new to the
    table; the recorded target size is then the size of the table.  With
    a corpus that brings no new character the bound is the larger of the
    target and the initial size. *)
Theorem train_size_bounds (t : tokenizer) (corpus : corpus_arg) (desired_vocab_size : Z)
    (word_level : bool) :
  exists t',
    train t corpus desired_vocab_size word_level = Ok t' /\
    (zlen (vocab t) <= zlen (vocab t'))%Z /\
    (zlen (vocab t')
     <= Z.max desired_vocab_size (zlen (vocab t))
        + (zlen (vocab (_include_corpus_chars t corpus)) - zlen (vocab t)))%Z /\
    vocab_size t' = Some (zlen (vocab t')) /\
    ((forall c, In c (corpus_text corpus) -> Dict.mem (vocab t) [c] = true) ->
     (zlen (vocab t') <= Z.max desired_vocab_size (zlen (vocab t)))%Z).
Proof.
  destruct (train_merge_spec t corpus desired_vocab_size word_level) as [merges [R B]].
  destruct (R t eq_refl) as [s [T V]].
  exists (_update_vocab s (vocab t ++ merges)).
  split; [unfold train; rewrite T; reflexivity|].
  set (v1 := vocab (_include_corpus_chars t corpus)) in *.
  destruct (include_chars_fold (corpus_text corpus) (vocab t)) as [_ [M [_ L]]].
  cbn zeta in M, L; rewrite <- vocab_include in M, L; fold v1 in M, L.
  assert (F : length (vocab (_update_vocab s (vocab t ++ merges)))
              <= length v1 + length merges).
  { rewrite vocab_update_vocab, V, dict_update_app.
    pose proof (length_update_le merges (dict_update v1 (vocab t))).
    rewrite (length_update_known (vocab t) v1) in *; [lia|].
    intros k I; apply M, mem_keys, I. }
  assert (G : length v1 <= length (vocab (_update_vocab s (vocab t ++ merges)))).
  { rewrite vocab_update_vocab, V; apply length_update_ge. }
  assert (Bd : (zlen (vocab (_update_vocab s (vocab t ++ merges)))
                <= Z.max desired_vocab_size (zlen (vocab t)) + (zlen v1 - zlen (vocab t)))%Z).
  { unfold zlen in *; rewrite length_app in B; lia. }
  repeat split.
  - unfold zlen; lia.
  - exact Bd.
  - unfold _update_vocab, _rebuild_token_dict.
    destruct (rebuild_dicts _); cbn [vocab_size vocab].
    unfold _set_vocab_size; rewrite Z.geb_leb, Z.leb_refl; reflexivity.
  - intros H.
    assert (E : length v1 = length (vocab t)).
    { unfold v1; rewrite vocab_include; apply include_known_length, H. }
    unfold zlen in *; lia.
Qed.

(** The literal bound fails: three characters new to the table and one
    merge take a table of 99 symbols past the requested 100. *)
Definition accented : str := [ascii_of_nat 233; ascii_of_nat 232; ascii_of_nat 224].

Lemma train_size_counterexample :
  exists t',
    train unconfigured (CorpusStr accented) 100 false = Ok t' /\
    zlen (vocab unconfigured) = 99%Z /\
    zlen (vocab t') = 103%Z /\
    (100 < zlen (vocab t'))%Z.
Proof. eexists; repeat split; vm_compute; reflexivity. Qed.

(** ** Segmentation across a boundary *)

Lemma default_in x : existsb (str_eqb x) _default_chars = true -> In x _default_chars.
Proof.
  rewrite existsb_exists; intros [y [I E]]; apply str_eqb_eq in E; subst y; exact I.
Qed.

Lemma marker_char_default mk d :
  mk = _PAD \/ mk = _EOS -> d < 7 -> In (char_at mk d) _default_chars.
Proof.
  intros M L; apply default_in.
  destruct M as [-> | ->];
    do 7 (destruct d as [|d]; [vm_compute; reflexivity|]); lia.
Qed.

Lemma char_at_skipn (text : str) i d : char_at (skipn i text) d = char_at text (i + d).
Proof. unfold char_at; rewrite nth_error_skipn; reflexivity. Qed.

Lemma marker_shape text i m :
  at_marker text i = Some m ->
  exists mk, (mk = _PAD \/ mk = _EOS) /\
             forall d, d < 7 -> char_at text (i + d) = char_at mk d.
Proof.
  intros A; destruct (at_marker_skipn _ _ _ A) as [mk [r [D S]]].
  exists mk; split; [destruct D as [[-> _]|[-> _]]; auto|].
  intros d L; rewrite <- char_at_skipn, S.
  assert (length mk = 7) by (destruct D as [[-> _]|[-> _]]; reflexivity).
  change d with (0 + d) at 1; unfold char_at; rewrite nth_error_app1 by lia; reflexivity.
Qed.

Lemma marker_inner text i m d :
  at_marker text i = Some m -> 1 <= d -> d < 7 -> char_at text (i + d) <> lit "<"%string.
Proof.
  intros A L1 L2; destruct (marker_shape _ _ _ A) as [mk [M S]]; rewrite (S d L2).
  destruct M as [-> | ->]; destruct d as [|d]; try lia;
    do 6 (destruct d as [|d]; [vm_compute; discriminate|]); lia.
Qed.

Lemma at_marker_first text i m :
  at_marker text i = Some m -> char_at text i = lit "<"%string.
Proof.
  intros A; destruct (marker_shape _ _ _ A) as [mk [M S]].
  rewrite <- (Nat.add_0_r i), (S 0) by lia; destruct M as [-> | ->]; reflexivity.
Qed.

Lemma at_marker_app_r (pre rest : str) i :
  at_marker (pre ++ rest) (length pre + i) = at_marker rest i.
Proof. unfold at_marker; rewrite skipn_app_r; reflexivity. Qed.

Lemma startswith_app_l (s r mk : str) :
  length mk <= length s -> startswith (s ++ r) mk = startswith s mk.
Proof.
  assert (N : forall x : str, startswith x [] = true) by (intros [|? ?]; reflexivity).
  revert s; induction mk as [|y mk IH]; intros s L; [rewrite !N; reflexivity|].
  destruct s as [|x s]; simpl in *; [lia|].
  rewrite IH by lia; reflexivity.
Qed.

Lemma at_marker_app_l (pre rest : str) i :
  i + 7 <= length pre -> at_marker (pre ++ rest) i = at_marker pre i.
Proof.
  intros L; unfold at_marker; rewrite skipn_app.
  rewrite !startswith_app_l by (rewrite length_skipn; simpl; lia); reflexivity.
Qed.

Lemma at_marker_past (text : str) i : length text < i + 7 -> at_marker text i = None.
Proof.
  intros L; destruct (at_marker text i) eqn:A; [|reflexivity].
  apply at_marker_bound in A; lia.
Qed.

Lemma at_marker_app_None (pre rest : str) i :
  at_marker (pre ++ rest) i = None -> at_marker pre i = None.
Proof.
  intros A; destruct (Nat.le_gt_cases (i + 7) (length pre)) as [L|L].
  - rewrite <- (at_marker_app_l pre rest i L); exact A.
  - apply at_marker_past; lia.
Qed.

Section Boundary.
Variables v enc : Dict.t str Z.
Hypothesis default_known : has_default_chars v.

(** The characters the second cursor still has to pass are known. *)
Definition good (text : str) (i j : nat) : Prop :=
  forall k, j <= k -> k < i -> Dict.mem v (char_at text k) = true.

Lemma marker_chars text i m k :
  at_marker text i = Some m -> i <= k -> k < i + 7 -> Dict.mem v (char_at text k) = true.
Proof.
  intros A L1 L2; destruct (marker_shape _ _ _ A) as [mk [M S]].
  replace k with (i + (k - i)) by lia; rewrite S by lia.
  apply default_known, marker_char_default; [exact M | lia].
Qed.

Lemma good_after_marker text i j m :
  at_marker text i = Some m -> good text i j -> good text (i + 7) j.
Proof.
  intros A G k L1 L2; destruct (Nat.lt_ge_cases k i) as [L|L]; [apply G; lia|].
  eapply marker_chars; eauto.
Qed.

Lemma catch_up text : forall n i j,
  measure text i j < n -> j <= i -> i <= length text -> good text i j ->
  E v enc text i j = E v enc text i i.
Proof.
  induction n as [|n IH]; intros i j Hm Hj Hi G; [lia|].
  destruct (Nat.eq_dec j i) as [->|N]; [reflexivity|].
  rewrite (E_unfold v enc text i j).
  replace (length text <? j) with false by (symmetry; apply Nat.ltb_ge; lia).
  destruct (at_marker text i) as [m|] eqn:A.
  - rewrite (E_unfold v enc text i i), A.
    replace (length text <? i) with false by (symmetry; apply Nat.ltb_ge; lia).
    pose proof (at_marker_bound _ _ _ A); f_equal.
    rewrite (IH (i + 7) j), (IH (i + 7) i); try lia.
    + reflexivity.
    + unfold measure in *; nia.
    + intros k L1 L2; eapply marker_chars; eauto.
    + pose proof (measure_marker text i j m A); lia.
    + eapply good_after_marker; eauto.
  - replace (j <? length text) with true by (symmetry; apply Nat.ltb_lt; lia).
    rewrite (slice_empty text i j) by lia; cbn [app].
    rewrite G by lia.
    apply IH; try lia.
    + pose proof (measure_body text i i j); lia.
    + intros k L1 L2; apply G; lia.
Qed.

Lemma E_shift (pre rest : str) : forall n i j,
  measure rest i j < n ->
  E v enc (pre ++ rest) (length pre + i) (length pre + j) = E v enc rest i j.
Proof.
  induction n as [|n IH]; intros i j Hm; [lia|].
  rewrite (E_unfold v enc (pre ++ rest)), (E_unfold v enc rest).
  rewrite at_marker_app_r, slice_app_r, char_at_app_r.
  replace (length (pre ++ rest) <? length pre + j) with (length rest <? j)
    by (rewrite length_app; destruct (Nat.ltb_spec (length rest) j),
          (Nat.ltb_spec (length pre + length rest) (length pre + j)); lia).
  replace (length pre + j <? length (pre ++ rest)) with (j <? length rest)
    by (rewrite length_app; destruct (Nat.ltb_spec j (length rest)),
          (Nat.ltb_spec (length pre + j) (length pre + length rest)); lia).
  destruct (length rest <? j) eqn:J; [reflexivity|]; apply Nat.ltb_ge in J.
  rewrite <- !Nat.add_assoc.
  destruct (at_marker rest i) as [m|] eqn:A.
  - rewrite IH; [reflexivity|]; pose proof (measure_marker rest i j m A); lia.
  - pose proof (measure_body rest i i j J); pose proof (measure_body rest i j j J).
    destruct (j <? length rest); [|reflexivity].
    destruct (Dict.mem v _); rewrite IH by lia; reflexivity.
Qed.

Lemma E_marker_head text i j m :
  at_marker text i = Some m -> j <= i + 7 -> good text i j ->
  E v enc text i j = m :: E v enc text (i + 7) (i + 7).
Proof.
  intros A L G; pose proof (at_marker_bound _ _ _ A).
  rewrite E_unfold, A.
  replace (length text <? j) with false by (symmetry; apply Nat.ltb_ge; lia).
  f_equal; apply catch_up with (n := S (measure text (i + 7) j)); try lia.
  eapply good_after_marker; eauto.
Qed.

Lemma E_empty_tail pre j : j <= length pre -> good pre (length pre) j ->
  E v enc pre (length pre) j = [].
Proof.
  intros L G.
  rewrite catch_up with (n := S (measure pre (length pre) j)); try lia; [|exact G].
  rewrite E_unfold, Nat.ltb_irrefl, (at_marker_past pre) by lia.
  rewrite slice_empty by lia; reflexivity.
Qed.

(** Segmenting [pre ++ rest] when nothing reaches across the boundary:
    no marker straddles it and no candidate of [pre] grows over the
    first character of [rest]. *)
Definition ends_with_marker (pre : str) : Prop :=
  exists m, 7 <= length pre /\ at_marker pre (length pre - 7) = Some m.

Lemma boundary (pre rest : str) :
  (forall i, i < length pre -> length pre < i + 7 -> at_marker (pre ++ rest) i = None) ->
  (rest <> [] -> forall i, i < length pre ->
     Dict.mem v (slice pre i (length pre) ++ char_at (pre ++ rest) (length pre)) = false) ->
  forall n i j,
    measure pre i j < n -> i <= length pre -> j <= length pre -> good (pre ++ rest) i j ->
    exists delta,
      delta <= 1 /\
      E v enc (pre ++ rest) i j
      = E v enc pre i j ++ E v enc (pre ++ rest) (length pre) (length pre + delta) /\
      (delta = 0 -> i = length pre \/ ends_with_marker pre).
Proof.
  intros H1 H2; set (p := length pre); set (text := pre ++ rest).
  assert (Lt : p <= length text) by (unfold text, p; rewrite length_app; lia).
  induction n as [|n IH]; intros i j Hm Hi Hj G; [lia|].
  assert (Gp : good pre i j).
  { intros k L1 L2; rewrite <- (char_at_app_l pre rest) by (fold p; lia); apply G; lia. }
  destruct (Nat.eq_dec i p) as [->|Ni].
  - exists 0; split; [lia|]; split; [|auto].
    unfold p at 2; rewrite (E_empty_tail pre j Hj Gp); cbn [app]; rewrite Nat.add_0_r.
    apply catch_up with (n := S (measure text p j)); try lia; exact G.
  - assert (Li : i < p) by lia.
    rewrite (E_unfold v enc text i j), (E_unfold v enc pre i j).
    replace (length text <? j) with false by (symmetry; apply Nat.ltb_ge; lia).
    replace (length pre <? j) with false by (symmetry; apply Nat.ltb_ge; fold p; lia).
    destruct (at_marker text i) as [m|] eqn:A.
    + assert (L7 : i + 7 <= p).
      { destruct (Nat.le_gt_cases (i + 7) p) as [L|L]; [exact L|].
        unfold text in A; rewrite (H1 i) in A by (fold p; lia); discriminate. }
      assert (Ap : at_marker pre i = Some m).
      { rewrite <- (at_marker_app_l pre rest i) by (fold p; lia); exact A. }
      rewrite Ap.
      destruct (IH (i + 7) j) as [delta [D [Eq Z]]]; try lia.
      * pose proof (measure_marker pre i j m Ap); lia.
      * eapply good_after_marker; eauto.
      * exists delta; split; [exact D|]; split; [rewrite Eq; reflexivity|].
        intros Z0; destruct (Z Z0) as [Z1|Z1]; [|auto].
        right; exists m; fold p; replace (p - 7) with i by lia; split; [lia | exact Ap].
    + rewrite (at_marker_app_None pre rest i A).
      destruct (Nat.eq_dec j p) as [->|Nj].
      * fold p; rewrite Nat.ltb_irrefl.
        assert (NE : str_eqb (slice pre i p) [] = false).
        { destruct (str_eqb (slice pre i p) []) eqn:C; [|reflexivity].
          apply str_eqb_eq in C; exfalso; revert C; apply slice_nonempty; unfold p; lia. }
        rewrite NE; exists 1; split; [lia|]; split; [|lia].
        unfold text; rewrite (slice_app_l pre rest i p) by (fold p; lia).
        destruct rest as [|c rest'].
        -- rewrite length_app, Nat.add_0_r; fold p; rewrite Nat.ltb_irrefl, NE.
           rewrite (E_unfold v enc (pre ++ []) p (p + 1)).
           replace (length (pre ++ []) <? p + 1) with true
             by (symmetry; apply Nat.ltb_lt; rewrite length_app; simpl; fold p; lia).
           reflexivity.
        -- replace (p <? length (pre ++ c :: rest')) with true
             by (symmetry; apply Nat.ltb_lt; rewrite length_app; simpl; fold p; lia).
           pose proof (H2 ltac:(discriminate) i Li) as Q; fold p in Q; rewrite Q; reflexivity.
      * assert (Lj : j < p) by lia.
        replace (j <? length text) with true by (symmetry; apply Nat.ltb_lt; lia).
        replace (j <? length pre) with true by (symmetry; apply Nat.ltb_lt; fold p; lia).
        unfold text; rewrite (slice_app_l pre rest i j) by (fold p; lia).
        rewrite (char_at_app_l pre rest j) by (fold p; lia); fold text.
        assert (Jp : j <= length pre) by (fold p; lia).
        pose proof (measure_body pre i i j Jp); pose proof (measure_body pre i j j Jp).
        destruct (Dict.mem v (slice pre i j ++ char_at pre j)).
        -- destruct (IH i (j + 1)) as [delta [D [Eq Z]]]; try lia.
           ++ intros k L1 L2; apply G; lia.
           ++ exists delta; auto.
        -- destruct (IH j (j + 1)) as [delta [D [Eq Z]]]; try lia.
           ++ intros k L1 L2; lia.
           ++ exists delta; split; [exact D|]; split; [rewrite Eq; reflexivity|].
              intros Z0; destruct (Z Z0) as [Z1|Z1]; [lia | auto].
Qed.
End Boundary.

(** ** Special markers in the text *)

(** No symbol of two or more characters ends in the character that
    opens a marker. *)
Definition no_lt_suffix (v : Dict.t str Z) : Prop :=
  forall w, w <> [] -> Dict.mem v (w ++ lit "<"%string) = false.

Lemma at_marker_here (mk post : str) (m : Z) :
  (mk = _PAD /\ m = 0%Z) \/ (mk = _EOS /\ m = (-2)%Z) ->
  at_marker (mk ++ post) 0 = Some m /\ length mk = 7.
Proof.
  intros [[-> ->]|[-> ->]]; split; try reflexivity; unfold at_marker; cbn [skipn].
  - rewrite (proj2 (startswith_app (_PAD ++ post) _PAD)); [reflexivity | eauto].
  - replace (startswith (_EOS ++ post) _PAD) with false by reflexivity.
    rewrite (proj2 (startswith_app (_EOS ++ post) _EOS)); [reflexivity | eauto].
Qed.

(** C6, amended.  On an instance whose table has no symbol of two or
    more characters ending in "<", a literal PAD or EOS marker anywhere
    in the text is consumed whole: the output is the tokens of the text
    before it, the marker's reserved ID, then the tokens of the text
    after it. *)
Theorem encode_marker_intercepted (t : tokenizer) (pre post mk : str) (m : Z) :
  instance t ->
  (mk = _PAD /\ m = 0%Z) \/ (mk = _EOS /\ m = (-2)%Z) ->
  no_lt_suffix (vocab t) ->
  exists tp tq,
    encode t pre 0 = Ok tp /\
    encode t post 0 = Ok tq /\
    encode t (pre ++ mk ++ post) 0 = Ok (tp ++ m :: tq).
Proof.
  intros I M NL; pose proof (instance_wf t I) as W.
  set (v := vocab t); set (enc := fst (rebuild_dicts v)).
  exists (E v enc pre 0 0), (E v enc post 0 0).
  rewrite !(encode_E t _ W); fold v enc.
  split; [reflexivity|]; split; [reflexivity|]; f_equal.
  pose proof (wf_default t W) as HD; fold v in HD.
  destruct (at_marker_here mk post m M) as [A0 L7].
  assert (C0 : char_at (pre ++ mk ++ post) (length pre) = lit "<"%string).
  { rewrite <- (Nat.add_0_r (length pre)), char_at_app_r.
    rewrite <- (Nat.add_0_r 0); eapply at_marker_first, A0. }
  assert (A : at_marker (pre ++ mk ++ post) (length pre) = Some m).
  { rewrite <- (Nat.add_0_r (length pre)), at_marker_app_r; exact A0. }
  destruct (boundary v enc HD pre (mk ++ post)) with (n := S (measure pre 0 0)) (i := 0) (j := 0)
    as [delta [D [Eq _]]]; try lia.
  - intros i L1 L2; destruct (at_marker (pre ++ mk ++ post) i) as [m'|] eqn:A'; [|reflexivity].
    exfalso; apply (marker_inner _ _ _ (length pre - i) A'); try lia.
    replace (i + (length pre - i)) with (length pre) by lia; exact C0.
  - intros _ i L; rewrite C0; apply NL, slice_nonempty; lia.
  - intros k L1 L2; lia.
  - rewrite Eq; f_equal.
    rewrite (E_marker_head v enc HD _ _ _ m A) by (try lia; intros k L1 L2; lia).
    f_equal; rewrite app_assoc.
    replace (length pre + 7) with (length (pre ++ mk) + 0) by (rewrite length_app; lia).
    apply E_shift with (n := S (measure post 0 0)); lia.
Qed.

Lemma no_lt_suffix_b (v : Dict.t str Z) :
  forallb (fun s => (length s <=? 1) || negb (str_eqb (skipn (length s - 1) s) (lit "<"%string)))
          (Dict.keys v) = true ->
  no_lt_suffix v.
Proof.
  intros F w NE; apply mem_false_keys; intros I.
  rewrite forallb_forall in F; specialize (F _ I).
  rewrite length_app in F; simpl in F.
  replace (length w + 1 - 1) with (length w) in F by lia.
  rewrite skipn_app, skipn_all, Nat.sub_diag in F; simpl in F.
  destruct w; [congruence|]; simpl in F; destruct (length w); discriminate.
Qed.

Lemma encode_marker_intercepted_witness :
  instance unconfigured /\
  ((_EOS = _PAD /\ (-2)%Z = 0%Z) \/ (_EOS = _EOS /\ (-2)%Z = (-2)%Z)) /\
  no_lt_suffix (vocab unconfigured) /\
  exists tp tq,
    encode unconfigured (lit "ab"%string) 0 = Ok tp /\
    encode unconfigured (lit "cd"%string) 0 = Ok tq /\
    encode unconfigured (lit "ab"%string ++ _EOS ++ lit "cd"%string) 0 = Ok (tp ++ (-2)%Z :: tq).
Proof.
  assert (N : no_lt_suffix (vocab unconfigured)) by (apply no_lt_suffix_b; vm_compute; reflexivity).
  split; [exact instance_unconfigured|]; split; [right; split; reflexivity|]; split; [exact N|].
  apply (encode_marker_intercepted unconfigured (lit "ab"%string) (lit "cd"%string) _EOS (-2)%Z
           instance_unconfigured (or_intror (conj eq_refl eq_refl)) N).
Defined.

(** The literal claim fails once a learned symbol ends in "<": after
    training on "a<a<" the table holds "a<", and the EOS marker in
    "a<|EOS|>" is segmented into its characters. *)
Lemma marker_counterexample :
  exists t,
    train unconfigured (CorpusStr (lit "a<a<"%string)) 100 false = Ok t /\
    Dict.mem (vocab t) (lit "a<"%string) = true /\
    encode t (lit "a<|EOS|>"%string) 0 = Ok [96; 92; 31; 41; 45; 92; 82]%Z /\
    ~ In (-2)%Z [96; 92; 31; 41; 45; 92; 82]%Z.
Proof.
  eexists; split; [vm_compute; reflexivity|]; split; [vm_compute; reflexivity|].
  split; [vm_compute; reflexivity|].
  simpl; intuition discriminate.
Qed.

(** ** Unknown characters *)

Lemma encoder_keys v s id :
  NoDup (Dict.keys v) ->
  Dict.get (fst (rebuild_dicts v)) s = Some id -> is_special s = true \/ Dict.mem v s = true.
Proof.
  intros ND; rewrite (rebuild_dicts_closed v ND); cbn [fst]; rewrite get_app.
  destruct (Dict.get specials_enc s) eqn:G.
  - intros _; left; rewrite <- special_mem; unfold Dict.mem; rewrite G; reflexivity.
  - intros C; right; apply mem_keys.
    assert (I : In s (Dict.keys (combine (learned v) (zseq 1 (length (learned v)))))).
    { apply mem_keys; unfold Dict.mem; rewrite C; reflexivity. }
    unfold Dict.keys in I.
    rewrite (proj1 (keys_combine _ _ (eq_sym (length_zseq 1 (length (learned v)))))) in I.
    unfold learned in I; apply filter_In in I; apply I.
Qed.

Lemma single_not_special c : is_special [c] = false.
Proof. unfold is_special; simpl; rewrite !andb_false_r; reflexivity. Qed.

Lemma E_start v enc (post : str) :
  has_default_chars v ->
  (forall d post', post = d :: post' -> Dict.mem v [d] = true) ->
  E v enc post 0 1 = E v enc post 0 0.
Proof.
  intros HD H; destruct post as [|d post'].
  - rewrite (E_unfold v enc [] 0 1), (E_unfold v enc [] 0 0); reflexivity.
  - specialize (H d post' eq_refl).
    destruct (at_marker (d :: post') 0) as [m|] eqn:A.
    + rewrite (E_marker_head v enc HD (d :: post') 0 1 m A),
              (E_marker_head v enc HD (d :: post') 0 0 m A);
        try lia; try reflexivity; intros k L1 L2; lia.
    + rewrite (E_unfold v enc (d :: post') 0 0), A.
      cbn [length Nat.ltb Nat.leb].
      rewrite (slice_empty (d :: post') 0 0) by lia.
      change (char_at (d :: post') 0) with [d]; cbn [app]; rewrite H; reflexivity.
Qed.

Lemma not_ends_with_marker (pre : str) :
  (forall pre0, pre <> pre0 ++ _PAD /\ pre <> pre0 ++ _EOS) -> ~ ends_with_marker pre.
Proof.
  intros H [m [L A]]; destruct (at_marker_skipn _ _ _ A) as [mk [r [D S]]].
  assert (R : r = []).
  { apply (f_equal (@length ascii)) in S; rewrite length_skipn, length_app in S.
    assert (length mk = 7) by (destruct D as [[-> _]|[-> _]]; reflexivity).
    destruct r; [reflexivity | simpl in S; lia]. }
  subst r; rewrite app_nil_r in S.
  pose proof (firstn_skipn (length pre - 7) pre) as F; rewrite S in F.
  destruct (H (firstn (length pre - 7) pre)) as [N1 N2].
  destruct D as [[-> _]|[-> _]]; [apply N1 | apply N2]; symmetry; exact F.
Qed.

(** C2, amended.  On an instance [encode] without padding always
    returns a token sequence.  A character that occurs in no symbol of
    the table, placed after a non-empty text that does not end in a PAD
    or EOS marker and before a text that is empty or begins with a known
    character, yields exactly one UNK at its position: the tokens of the
    text before it, UNK, then the tokens of the text after it. *)
Theorem encode_unknown_char :
  (forall t text, instance t -> exists tokens, encode t text 0 = Ok tokens) /\
  (forall t (pre : str) (c : ascii) (post : str),
     instance t ->
     (forall s, Dict.mem (vocab t) s = true -> ~ In c s) ->
     pre <> [] ->
     (forall pre0, pre <> pre0 ++ _PAD /\ pre <> pre0 ++ _EOS) ->
     (forall d post', post = d :: post' -> Dict.mem (vocab t) [d] = true) ->
     exists tp tq,
       encode t pre 0 = Ok tp /\
       encode t post 0 = Ok tq /\
       encode t (pre ++ c :: post) 0 = Ok (tp ++ (-999)%Z :: tq)).
Proof.
  split.
  { intros t text I; eexists; apply encode_E, instance_wf, I. }
  intros t pre c post I Hc Hne Hmk Hpost; pose proof (instance_wf t I) as W.
  set (v := vocab t) in *; set (enc := fst (rebuild_dicts v)).
  exists (E v enc pre 0 0), (E v enc post 0 0).
  rewrite !(encode_E t _ W); fold v enc.
  split; [reflexivity|]; split; [reflexivity|]; f_equal.
  pose proof (wf_default t W) as HD; fold v in HD.
  pose proof (wf_nodup t W) as ND; fold v in ND.
  set (p := length pre); set (text := pre ++ c :: post).
  assert (Cp : char_at text p = [c]).
  { unfold text, p; rewrite <- (Nat.add_0_r (length pre)), char_at_app_r; reflexivity. }
  assert (Lp : length text = p + 1 + length post).
  { unfold text, p; rewrite length_app; simpl; lia. }
  assert (Unk : forall w, In c w -> Dict.mem v w = false).
  { intros w Iw; destruct (Dict.mem v w) eqn:Mw; [|reflexivity].
    exfalso; apply (Hc w Mw Iw). }
  assert (NoM : forall i, i <= p -> p < i + 7 -> at_marker text i = None).
  { intros i L1 L2; destruct (at_marker text i) as [m'|] eqn:A'; [|reflexivity].
    pose proof (marker_chars v HD text i m' p A' L1 L2) as Mc.
    rewrite Cp, Unk in Mc; [discriminate | left; reflexivity]. }
  destruct (boundary v enc HD pre (c :: post)) with (n := S (measure pre 0 0)) (i := 0) (j := 0)
    as [delta [D [Eq Z]]]; try lia.
  - intros i L1 L2; apply NoM; fold p; lia.
  - intros _ i L; fold text p; rewrite Cp; apply Unk, in_app_iff; right; left; reflexivity.
  - intros k L1 L2; lia.
  - fold text p in Eq, Z; rewrite Eq; f_equal.
    assert (delta = 1).
    { destruct delta as [|[|]]; try lia.
      destruct (Z eq_refl) as [Z0|Z0].
      - destruct pre; [congruence | discriminate].
      - exfalso; eapply not_ends_with_marker; eauto. }
    subst delta.
    assert (TK : tok_of enc [c] = (-999)%Z).
    { unfold tok_of; destruct (Dict.get enc [c]) as [id|] eqn:G; [|reflexivity].
      destruct (encoder_keys v [c] id ND G) as [S|S].
      - rewrite single_not_special in S; discriminate.
      - rewrite Unk in S; [discriminate | left; reflexivity]. }
    rewrite (E_unfold v enc text p (p + 1)).
    replace (length text <? p + 1) with false by (symmetry; apply Nat.ltb_ge; lia).
    rewrite (NoM p) by lia.
    replace (p + 1) with (S p) by lia; rewrite slice_single, Cp, TK.
    destruct post as [|d post'].
    + replace (S p <? length text) with false by (symmetry; apply Nat.ltb_ge; simpl in Lp; lia).
      cbn [str_eqb]; rewrite (E_unfold v enc [] 0 0); reflexivity.
    + replace (S p <? length text) with true by (symmetry; apply Nat.ltb_lt; simpl in Lp; lia).
      rewrite Unk by (apply in_app_iff; left; left; reflexivity).
      f_equal.
      rewrite <- (E_start v enc (d :: post') HD Hpost).
      unfold text; change (pre ++ c :: d :: post') with (pre ++ [c] ++ d :: post').
      rewrite app_assoc.
      replace (S p) with (length (pre ++ [c]) + 0) by (rewrite length_app; simpl; fold p; lia).
      replace (length (pre ++ [c]) + 0 + 1) with (length (pre ++ [c]) + 1) by lia.
      apply E_shift with (n := S (measure (d :: post') 0 1)); lia.
Qed.

Lemma in_no_symbol_b (v : Dict.t str Z) (c : ascii) :
  forallb (fun s => negb (existsb (Ascii.eqb c) s)) (Dict.keys v) = true ->
  forall s, Dict.mem v s = true -> ~ In c s.
Proof.
  intros F s M I; rewrite forallb_forall in F.
  specialize (F s (proj1 (mem_keys v s) M)); apply negb_true_iff in F.
  assert (existsb (Ascii.eqb c) s = true); [|congruence].
  apply existsb_exists; exists c; split; [exact I | apply Ascii.eqb_refl].
Qed.

Definition e_acute : ascii := ascii_of_nat 233.

Lemma encode_unknown_char_witness :
  instance unconfigured /\
  (forall s, Dict.mem (vocab unconfigured) s = true -> ~ In e_acute s) /\
  lit "a"%string <> [] /\
  (forall pre0, lit "a"%string <> pre0 ++ _PAD /\ lit "a"%string <> pre0 ++ _EOS) /\
  (forall d post', lit "b"%string = d :: post' -> Dict.mem (vocab unconfigured) [d] = true) /\
  exists tp tq,
    encode unconfigured (lit "a"%string) 0 = Ok tp /\
    encode unconfigured (lit "b"%string) 0 = Ok tq /\
    encode unconfigured (lit "a"%string ++ e_acute :: lit "b"%string) 0
    = Ok (tp ++ (-999)%Z :: tq).
Proof.
  assert (H1 : forall s, Dict.mem (vocab unconfigured) s = true -> ~ In e_acute s)
    by (apply in_no_symbol_b; vm_compute; reflexivity).
  assert (H2 : lit "a"%string <> []) by discriminate.
  assert (H3 : forall pre0, lit "a"%string <> pre0 ++ _PAD /\ lit "a"%string <> pre0 ++ _EOS).
  { intros pre0; split; intros C; apply (f_equal (@length ascii)) in C;
      rewrite length_app in C; simpl in C; lia. }
  assert (H4 : forall d post', lit "b"%string = d :: post' ->
                               Dict.mem (vocab unconfigured) [d] = true).
  { intros d post' C; injection C as <- _; vm_compute; reflexivity. }
  repeat (split; [first [exact instance_unconfigured | assumption]|]).
  apply (proj2 encode_unknown_char unconfigured (lit "a"%string) e_acute (lit "b"%string)
           instance_unconfigured H1 H2 H3 H4).
Defined.

(** The literal claim fails on a table that holds a symbol containing
    the character but not the character itself: loaded with the symbol
    "e-acute b", the text "a e-acute b" encodes without any UNK. *)
Lemma unknown_char_counterexample :
  exists t,
    __init__ None None (Some [([e_acute; "b"%char], 1%Z)]) = Ok t /\
    Dict.mem (vocab t) [e_acute] = false /\
    encode t ("a"%char :: e_acute :: lit "b"%string) 0 = Ok [1; 96]%Z /\
    ~ In (-999)%Z [1; 96]%Z.
Proof.
  eexists; split; [vm_compute; reflexivity|]; split; [vm_compute; reflexivity|].
  split; [vm_compute; reflexivity|].
  simpl; intuition discriminate.
Qed.

(** At the start of a text the empty candidate is looked up as well, so
    one unknown character gives two UNK tokens. *)
Lemma unknown_char_at_start : encode unconfigured [e_acute] 0 = Ok [(-999)%Z; (-999)%Z].
Proof. vm_compute; reflexivity. Qed.

(** The round trip fails on a text made of table symbols when the
    table lacks the characters of one of them: with the symbol
    "e-acute a b" loaded, the text "x" ++ "e-acute a b" decodes to
    "x<|UNK|>ab". *)
Lemma roundtrip_counterexample :
  exists t tokens,
    __init__ None None (Some [([e_acute; "a"%char; "b"%char], 1%Z)]) = Ok t /\
    Dict.mem (vocab t) (lit "x"%string) = true /\
    Dict.mem (vocab t) [e_acute; "a"%char; "b"%char] = true /\
    encode t (lit "x"%string ++ [e_acute; "a"%char; "b"%char]) 0 = Ok tokens /\
    decode t tokens = Ok (lit "x<|UNK|>ab"%string) /\
    lit "x<|UNK|>ab"%string <> lit "x"%string ++ [e_acute; "a"%char; "b"%char].
Proof.
  eexists; eexists; repeat split; try (vm_compute; reflexivity).
  vm_compute; discriminate.
Qed.

Lemma rebuild_token_dict_bijection_witness :
  NoDup (Dict.keys (vocab (_init_vocab blank))) /\
  exists enc dec,
    encoder_dict (_rebuild_token_dict (_init_vocab blank)) = Some enc /\
    decoder_dict (_rebuild_token_dict (_init_vocab blank)) = Some dec /\
    (Dict.get enc _PAD = Some 0%Z /\ Dict.get enc _SOS = Some (-1)%Z /\
     Dict.get enc _EOS = Some (-2)%Z /\ Dict.get enc _UNK = Some (-999)%Z) /\
    (Dict.get dec 0%Z = Some _PAD /\ Dict.get dec (-1)%Z = Some _SOS /\
     Dict.get dec (-2)%Z = Some _EOS /\ Dict.get dec (-999)%Z = Some _UNK) /\
    (forall n s, nth_error (learned (vocab (_init_vocab blank))) n = Some s ->
       Dict.get enc s = Some (Z.of_nat n + 1)%Z /\
       Dict.get dec (Z.of_nat n + 1)%Z = Some s) /\
    (forall s id, Dict.get enc s = Some id <-> Dict.get dec id = Some s).
Proof.
  split; [exact init_vocab_nodup|].
  apply (rebuild_token_dict_bijection (_init_vocab blank) init_vocab_nodup).
Defined.


(** * Further properties of the tokenizer *)

(** ** What every instance keeps *)

Lemma vocab_size_init_vocab t :
  vocab_size (_init_vocab t) = Some (zlen (vocab (_init_vocab t))).
Proof.
  unfold _init_vocab, _set_vocab_size; cbv zeta; cbn [vocab set_vocab_field set_vocab_size_field].
  rewrite Z.geb_leb, Z.leb_refl; reflexivity.
Qed.

Lemma vocab_size_rebuild t : vocab_size (_rebuild_token_dict t) = vocab_size t.
Proof. unfold _rebuild_token_dict; destruct (rebuild_dicts (vocab t)); reflexivity. Qed.

Lemma vocab_size_update_vocab t ext :
  vocab_size (_update_vocab t ext) = Some (zlen (vocab (_update_vocab t ext))).
Proof.
  rewrite vocab_update_vocab; unfold _update_vocab; rewrite vocab_size_rebuild.
  unfold _set_vocab_size; cbn [vocab set_vocab_field set_vocab_size_field].
  rewrite Z.geb_leb, Z.leb_refl; reflexivity.
Qed.

Lemma vocab_size_train t corpus n wl t' :
  train t corpus n wl = Ok t' -> vocab_size t' = Some (zlen (vocab t')).
Proof.
  unfold train; destruct (train_merge t corpus n wl) as [r| |]; simpl; try discriminate.
  intros E; injection E as <-; apply vocab_size_update_vocab.
Qed.

Lemma vocab_size_init c n vj t :
  __init__ c n vj = Ok t -> vocab_size t = Some (zlen (vocab t)).
Proof.
  unfold __init__; cbv zeta.
  assert (R : vocab_size (_rebuild_token_dict (_init_vocab blank))
              = Some (zlen (vocab (_rebuild_token_dict (_init_vocab blank)))))
    by (rewrite vocab_size_rebuild, vocab_rebuild; apply vocab_size_init_vocab).
  generalize dependent (_init_vocab blank); intros t0 R.
  destruct vj as [[|kv ext]|], n as [n|], c as [c|];
    try (intros E; injection E as <-; first [exact R | apply vocab_size_update_vocab]);
    destruct (negb (n =? 0)%Z && corpus_truthy (Some c));
    first [apply vocab_size_train | intros E; injection E as <-; exact R].
Qed.

(** X1.  Every object built by the constructor and then trained or
    loaded any number of times keeps a table without duplicate keys
    that still holds all the default symbols, an ID mapping that is the
    one rebuilt from the current table, and a recorded [vocab_size]
    equal to the size of the table. *)
Theorem instance_invariant (t : tokenizer) :
  instance t ->
  NoDup (Dict.keys (vocab t)) /\
  (forall c, In c _default_chars -> Dict.mem (vocab t) c = true) /\
  encoder_dict t = Some (fst (rebuild_dicts (vocab t))) /\
  decoder_dict t = Some (snd (rebuild_dicts (vocab t))) /\
  vocab_size t = Some (zlen (vocab t)).
Proof.
  intros I; destruct (instance_wf t I) as [ND [SE SD] HD].
  repeat split; try assumption.
  destruct I as [c n vj t I | t c n wl t' _ T | t ext _].
  - eapply vocab_size_init, I.
  - eapply vocab_size_train, T.
  - apply vocab_size_update_vocab.
Qed.

Lemma instance_invariant_witness :
  instance unconfigured /\
  NoDup (Dict.keys (vocab unconfigured)) /\
  (forall c, In c _default_chars -> Dict.mem (vocab unconfigured) c = true) /\
  encoder_dict unconfigured = Some (fst (rebuild_dicts (vocab unconfigured))) /\
  decoder_dict unconfigured = Some (snd (rebuild_dicts (vocab unconfigured))) /\
  vocab_size unconfigured = Some (zlen (vocab unconfigured)).
Proof.
  split; [exact instance_unconfigured|].
  apply (instance_invariant unconfigured instance_unconfigured).
Defined.

(** ** Merging a vocabulary in *)

Lemma dict_update_get (ext : Dict.t str Z) : forall (d : Dict.t str Z) k,
  NoDup (Dict.keys ext) ->
  Dict.get (dict_update d ext) k
  = match Dict.get ext k with
    | Some n => Some n
    | None => Dict.get d k
    end.
Proof.
  unfold dict_update; induction ext as [|[k0 v0] r IH]; intros d k ND; simpl; [reflexivity|].
  inversion ND as [|? ? NI ND']; subst.
  rewrite IH by exact ND'.
  destruct (str_eqb k0 k) eqn:E.
  - apply str_eqb_eq in E; subst k0.
    rewrite (proj2 (get_none_keys r k) NI), get_set_same; reflexivity.
  - destruct (Dict.get r k); [reflexivity|].
    apply get_set_other; intros ->; rewrite (proj2 (str_eqb_eq k k) eq_refl) in E; discriminate.
Qed.

Lemma dict_update_keys (ext : Dict.t str Z) : forall d : Dict.t str Z,
  exists more,
    Dict.keys (dict_update d ext) = Dict.keys d ++ more /\
    forall k, In k more -> In k (Dict.keys ext).
Proof.
  unfold dict_update; induction ext as [|[k0 v0] r IH]; intros d; simpl.
  - exists []; rewrite app_nil_r; split; [reflexivity | intros k []].
  - destruct (IH (Dict.set d k0 v0)) as [more [K A]]; rewrite K, keys_set.
    destruct (Dict.mem d k0).
    + exists more; split; [reflexivity | intros k I; right; apply A, I].
    + exists (k0 :: more); rewrite <- app_assoc; split; [reflexivity|].
      intros k [<-|I]; [left; reflexivity | right; apply A, I].
Qed.

(** X2.  [_update_vocab] overwrites: afterwards a symbol of the
    external vocabulary has the external count (the old count is
    replaced, not added to), every other symbol keeps its count, the
    old symbols keep their places and the new ones follow them. *)
Theorem update_vocab_lookup (t : tokenizer) (ext : Dict.t str Z) :
  NoDup (Dict.keys ext) ->
  (forall k,
     Dict.get (vocab (_update_vocab t ext)) k
     = match Dict.get ext k with
       | Some n => Some n
       | None => Dict.get (vocab t) k
       end) /\
  (exists more,
     Dict.keys (vocab (_update_vocab t ext)) = Dict.keys (vocab t) ++ more /\
     forall k, In k more -> In k (Dict.keys ext)).
Proof.
  intros ND; rewrite vocab_update_vocab; split.
  - intros k; apply dict_update_get, ND.
  - apply dict_update_keys.
Qed.

Lemma update_vocab_lookup_witness :
  NoDup (Dict.keys [(lit "a"%string, 5%Z); (lit "th"%string, 7%Z)]) /\
  (forall k,
     Dict.get (vocab (_update_vocab unconfigured [(lit "a"%string, 5%Z); (lit "th"%string, 7%Z)])) k
     = match Dict.get [(lit "a"%string, 5%Z); (lit "th"%string, 7%Z)] k with
       | Some n => Some n
       | None => Dict.get (vocab unconfigured) k
       end) /\
  (exists more,
     Dict.keys (vocab (_update_vocab unconfigured [(lit "a"%string, 5%Z); (lit "th"%string, 7%Z)]))
     = Dict.keys (vocab unconfigured) ++ more /\
     forall k, In k more -> In k (Dict.keys [(lit "a"%string, 5%Z); (lit "th"%string, 7%Z)])).
Proof.
  assert (ND : NoDup (Dict.keys [(lit "a"%string, 5%Z); (lit "th"%string, 7%Z)]))
    by (apply nodupb_NoDup; reflexivity).
  split; [exact ND|].
  apply (update_vocab_lookup unconfigured _ ND).
Defined.

(** ** Absorbing the corpus characters *)

Lemma bump_get_other (d : Dict.t str Z) k k' inc :
  k <> k' -> Dict.get (bump d k inc) k' = Dict.get d k'.
Proof.
  intros N; unfold bump; destruct (Dict.get d k); apply get_set_other, N.
Qed.

Fixpoint occurrences (c : ascii) (s : str) : Z :=
  match s with
  | [] => 0%Z
  | x :: r => ((if Ascii.eqb x c then 1 else 0) + occurrences c r)%Z
  end.

(** X3.  [_include_corpus_chars] adds to the count of every character
    the number of times it occurs in the corpus (a new character
    starting from nothing), leaves every symbol that is not a single
    character as it was, and the table then holds exactly the old
    symbols and the corpus characters. *)
Theorem include_corpus_chars_counts (t : tokenizer) (corpus : corpus_arg) :
  let t' := _include_corpus_chars t corpus in
  (forall c, get_or_zero (vocab t') [c]
             = (get_or_zero (vocab t) [c] + occurrences c (corpus_text corpus))%Z) /\
  (forall k, length k <> 1 -> Dict.get (vocab t') k = Dict.get (vocab t) k) /\
  (forall k, Dict.mem (vocab t') k = true <->
             Dict.mem (vocab t) k = true \/ exists c, k = [c] /\ In c (corpus_text corpus)).
Proof.
  cbv zeta; rewrite vocab_include.
  generalize (vocab t) as v; induction (corpus_text corpus) as [|x cs IH]; intros v; simpl.
  - repeat split; try tauto; [intros c; lia|].
    intros [M|[c [_ []]]]; exact M.
  - destruct (IH (bump v [x] 1%Z)) as [A [B C]]; repeat split.
    + intros c; rewrite A, bump_get; simpl; rewrite andb_true_r; lia.
    + intros k L; rewrite B by exact L; apply bump_get_other; intros <-; apply L; reflexivity.
    + rewrite C, bump_mem; intros [M|[c [-> I]]].
      * apply orb_true_iff in M as [M|M]; [|left; exact M].
        apply str_eqb_eq in M; subst k; right; exists x; split; [reflexivity | left; reflexivity].
      * right; exists c; split; [reflexivity | right; exact I].
    + rewrite C, bump_mem; intros [M|[c [-> [->|I]]]].
      * left; rewrite M; apply orb_true_r.
      * left; simpl; rewrite Ascii.eqb_refl; reflexivity.
      * right; exists c; split; [reflexivity | exact I].
Qed.

(** ** Decoding *)

Lemma decode_loop_acc dec : forall toks acc,
  decode_loop dec toks acc = (c <- decode_loop dec toks [] ;; Ok (acc ++ c)).
Proof.
  induction toks as [|tok r IH]; intros acc; simpl; [rewrite app_nil_r; reflexivity|].
  destruct (subscript dec tok) as [s| |]; cbn [bind]; try reflexivity.
  rewrite (IH (acc ++ [s])), (IH [s]).
  destruct (decode_loop dec r []) as [c| |]; cbn [bind]; try reflexivity.
  rewrite <- app_assoc; reflexivity.
Qed.

Lemma decode_loop_app dec : forall a b acc,
  decode_loop dec (a ++ b) acc = (x <- decode_loop dec a acc ;; decode_loop dec b x).
Proof.
  induction a as [|tok r IH]; intros b acc; simpl; [reflexivity|].
  destruct (subscript dec tok) as [s| |]; cbn [bind]; try reflexivity.
  apply IH.
Qed.

(** X4.  Decoding a concatenation of token lists is the concatenation
    of their decodings, errors included: the first failing part, if
    any, decides the error. *)
Theorem decode_app (t : tokenizer) (a b : list Z) :
  decode t (a ++ b) = (x <- decode t a ;; y <- decode t b ;; Ok (x ++ y)).
Proof.
  unfold decode, _decode_chunks.
  destruct (decoder_dict t) as [dec|]; [|reflexivity].
  destruct (Dict.is_empty dec); [reflexivity|].
  rewrite decode_loop_app.
  destruct (decode_loop dec a []) as [ca| |]; cbn [bind]; try reflexivity.
  rewrite decode_loop_acc.
  destruct (decode_loop dec b []) as [cb| |]; cbn [bind]; try reflexivity.
  rewrite concat_app; reflexivity.
Qed.

Lemma decode_loop_known dec : forall toks acc,
  Forall (fun tok => Dict.mem dec tok = true) toks ->
  exists chunks, decode_loop dec toks acc = Ok chunks.
Proof.
  induction toks as [|tok r IH]; intros acc F; simpl; [eauto|].
  inversion F as [|? ? M F']; subst.
  unfold subscript, Dict.mem in *; destruct (Dict.get dec tok); [|discriminate].
  cbn [bind]; apply IH, F'.
Qed.

Lemma decode_loop_unknown dec : forall toks acc,
  Exists (fun tok => Dict.mem dec tok = false) toks ->
  decode_loop dec toks acc = Raise KeyError.
Proof.
  induction toks as [|tok r IH]; intros acc X; simpl; [inversion X|].
  unfold subscript; destruct (Dict.get dec tok) eqn:G; cbn [bind]; [|reflexivity].
  inversion X as [? ? M|? ? X']; subst; [|apply IH, X'].
  unfold Dict.mem in M; rewrite G in M; discriminate.
Qed.

(** The IDs of an object: the four reserved ones and 1 .. number of
    learned symbols. *)
Definition valid_id (t : tokenizer) (id : Z) : Prop :=
  In id [0; -1; -2; -999]%Z \/ (1 <= id <= zlen (learned (vocab t)))%Z.

Lemma decoder_mem t id :
  wf t -> (Dict.mem (snd (rebuild_dicts (vocab t))) id = true <-> valid_id t id).
Proof.
  intros [ND _ _]; rewrite (rebuild_dicts_closed _ ND); cbn [snd].
  rewrite mem_keys; unfold Dict.keys; rewrite map_app.
  rewrite (proj1 (keys_combine _ _ (length_zseq 1 (length (learned (vocab t)))))).
  change (map fst specials_dec) with [0; -999; -1; -2]%Z.
  rewrite in_app_iff, in_zseq; unfold valid_id, zlen; cbn [In]; intuition lia.
Qed.

Lemma decoder_of_instance t :
  wf t ->
  forall tokens,
    decode t tokens
    = (chunks <- decode_loop (snd (rebuild_dicts (vocab t))) tokens [] ;; Ok (concat chunks)).
Proof.
  intros [ND [_ SD] _] tokens; unfold decode, _decode_chunks; rewrite SD.
  replace (Dict.is_empty (snd (rebuild_dicts (vocab t)))) with false; [reflexivity|].
  rewrite (rebuild_dicts_closed _ ND); reflexivity.
Qed.

(** X5.  On an instance [decode] returns a text exactly when every
    token is one of the object's IDs (0, -1, -2, -999 or 1 up to the
    number of learned symbols); any other token makes it raise
    KeyError. *)
Theorem decode_valid_ids (t : tokenizer) (tokens : list Z) :
  instance t ->
  (Forall (valid_id t) tokens -> exists s, decode t tokens = Ok s) /\
  (Exists (fun id => ~ valid_id t id) tokens -> decode t tokens = Raise KeyError).
Proof.
  intros I; pose proof (instance_wf t I) as W.
  rewrite (decoder_of_instance t W); split.
  - intros F.
    destruct (decode_loop_known (snd (rebuild_dicts (vocab t))) tokens []) as [chunks D].
    + eapply Forall_impl; [|exact F]; intros id V; apply decoder_mem; assumption.
    + rewrite D; cbn [bind]; eauto.
  - intros X; rewrite decode_loop_unknown; [reflexivity|].
    eapply Exists_impl; [|exact X]; intros id V; cbv beta in V.
    destruct (Dict.mem (snd (rebuild_dicts (vocab t))) id) eqn:M; [|reflexivity].
    exfalso; apply V, decoder_mem; assumption.
Qed.

Lemma decode_valid_ids_witness :
  instance unconfigured /\
  Forall (valid_id unconfigured) [1; 2; -2; 95]%Z /\
  (exists s, decode unconfigured [1; 2; -2; 95]%Z = Ok s) /\
  Exists (fun id => ~ valid_id unconfigured id) [1; 96]%Z /\
  decode unconfigured [1; 96]%Z = Raise KeyError.
Proof.
  assert (F : Forall (valid_id unconfigured) [1; 2; -2; 95]%Z).
  { repeat (apply Forall_cons;
              [unfold valid_id;
               first [left; simpl; tauto | right; vm_compute; split; discriminate]|]).
    apply Forall_nil. }
  assert (X : Exists (fun id => ~ valid_id unconfigured id) [1; 96]%Z).
  { right; left; intros [H|H]; [simpl in H; intuition discriminate|].
    vm_compute in H; apply (proj2 H); reflexivity. }
  split; [exact instance_unconfigured|]; split; [exact F|]; split; [|split; [exact X|]].
  - apply (proj1 (decode_valid_ids unconfigured [1; 2; -2; 95]%Z instance_unconfigured) F).
  - apply (proj2 (decode_valid_ids unconfigured [1; 96]%Z instance_unconfigured) X).
Defined.

(** ** What [encode] emits *)

Section Emitted.
Variables (v enc : Dict.t str Z) (dec : Dict.t Z str).
Hypothesis inverse : forall s id, Dict.get enc s = Some id -> Dict.get dec id = Some s.
Hypothesis dec_PAD : Dict.mem dec 0%Z = true.
Hypothesis dec_EOS : Dict.mem dec (-2)%Z = true.
Hypothesis dec_UNK : Dict.mem dec (-999)%Z = true.

Lemma tok_of_known w : Dict.mem dec (tok_of enc w) = true.
Proof.
  unfold tok_of; destruct (Dict.get enc w) eqn:G; [|exact dec_UNK].
  unfold Dict.mem; rewrite (inverse _ _ G); reflexivity.
Qed.

Lemma E_known text : forall n i j,
  measure text i j < n -> Forall (fun tok => Dict.mem dec tok = true) (E v enc text i j).
Proof.
  induction n as [|n IH]; intros i j Hm; [lia|].
  rewrite E_unfold.
  destruct (length text <? j) eqn:J; [constructor|]; apply Nat.ltb_ge in J.
  destruct (at_marker text i) as [m|] eqn:A.
  - constructor.
    + unfold at_marker in A.
      destruct (startswith (skipn i text) _PAD); [injection A as <-; exact dec_PAD|].
      destruct (startswith (skipn i text) _EOS); [injection A as <-; exact dec_EOS|discriminate].
    + apply IH; pose proof (measure_marker text i j m A); lia.
  - pose proof (measure_body text i i j J); pose proof (measure_body text i j j J).
    destruct (j <? length text).
    + destruct (Dict.mem v _); [apply IH; lia|].
      constructor; [apply tok_of_known | apply IH; lia].
    + destruct (str_eqb (slice text i j) []); constructor; [apply tok_of_known | constructor].
Qed.
End Emitted.

(** X6.  On an instance, whatever the text (unknown characters
    included), [encode] returns tokens that are all IDs of the object,
    so [decode] accepts its output. *)
Theorem encode_output_decodable (t : tokenizer) (text : str) :
  instance t ->
  exists tokens s,
    encode t text 0 = Ok tokens /\ Forall (valid_id t) tokens /\ decode t tokens = Ok s.
Proof.
  intros I; pose proof (instance_wf t I) as W.
  set (toks := E (vocab t) (fst (rebuild_dicts (vocab t))) text 0 0).
  assert (F : Forall (fun tok => Dict.mem (snd (rebuild_dicts (vocab t))) tok = true) toks).
  { destruct W as [ND _ _].
    apply E_known with (n := S (measure text 0 0)); try lia.
    - intros s id G; apply rebuild_inverse; assumption.
    - rewrite (rebuild_dicts_closed _ ND); reflexivity.
    - rewrite (rebuild_dicts_closed _ ND); reflexivity.
    - rewrite (rebuild_dicts_closed _ ND); reflexivity. }
  destruct (decode_loop_known _ toks [] F) as [chunks D].
  exists toks, (concat chunks); split; [apply encode_E, W|]; split.
  - eapply Forall_impl; [|exact F]; intros id M; apply decoder_mem; assumption.
  - rewrite (decoder_of_instance t W), D; reflexivity.
Qed.

Lemma encode_output_decodable_witness :
  instance unconfigured /\
  exists tokens s,
    encode unconfigured [e_acute; "a"%char] 0 = Ok tokens /\
    Forall (valid_id unconfigured) tokens /\ decode unconfigured tokens = Ok s.
Proof.
  split; [exact instance_unconfigured|].
  apply (encode_output_decodable unconfigured [e_acute; "a"%char] instance_unconfigured).
Defined.

(** ** Encoding with padding *)

Lemma encode_pad_E t text n :
  wf t ->
  encode t text n
  = if (n >? 0)%Z
    then pad t (E (vocab t) (fst (rebuild_dicts (vocab t))) text 0 0) n
    else Ok (E (vocab t) (fst (rebuild_dicts (vocab t))) text 0 0).
Proof.
  intros W; destruct (wf_encoder t W) as [SE [NE [P [Q [U _]]]]].
  unfold encode; rewrite SE; cbn [dict_missing dict_of bind]; rewrite NE.
  rewrite (encode_loop_E _ _ P Q U); reflexivity.
Qed.

Lemma pad_value t tokens n :
  wf t ->
  pad t tokens n
  = if (zlen tokens + 2 >=? n)%Z
    then Raise (CannotPad (length tokens) n)
    else Ok ((-1)%Z :: tokens ++ (-2)%Z :: repeat 0%Z (Z.to_nat (n - zlen tokens - 2))).
Proof.
  intros W; destruct (wf_encoder t W) as [SE [_ [P [Q [_ S]]]]].
  unfold pad; rewrite SE; cbn [dict_of bind]; unfold subscript; rewrite S, Q, P; cbn [bind].
  destruct (zlen tokens + 2 >=? n)%Z; [reflexivity|].
  rewrite extend_repeat, length_seq; f_equal.
  replace (zlen (((-1)%Z :: tokens) ++ [(-2)%Z])) with (zlen tokens + 2)%Z
    by (unfold zlen; rewrite length_app; simpl; lia).
  replace (n - (zlen tokens + 2))%Z with (n - zlen tokens - 2)%Z by lia.
  simpl; rewrite <- app_assoc; reflexivity.
Qed.

Lemma Decodes_app dec a b s s' :
  Decodes dec a s -> Decodes dec b s' -> Decodes dec (a ++ b) (s ++ s').
Proof.
  induction 1 as [|tok w toks s G _ IH]; intros D; simpl; [exact D|].
  rewrite <- app_assoc; constructor; auto.
Qed.

Lemma Decodes_repeat dec tok w k :
  Dict.get dec tok = Some w -> Decodes dec (repeat tok k) (concat (repeat w k)).
Proof. intros G; induction k; simpl; constructor; auto. Qed.

(** X7.  On an instance, for a text whose characters are all table
    symbols and [pad_to_tokens = n > 0]: when the tokens of the text
    plus two fit strictly below [n], [encode] returns [n] tokens that
    decode to the SOS marker, the text, the EOS marker and PAD markers;
    otherwise it raises the capacity error of [pad]. *)
Theorem encode_padded_roundtrip (t : tokenizer) (text : str) (n : Z) (tokens : list Z) :
  instance t ->
  (forall c, In c text -> Dict.mem (vocab t) [c] = true) ->
  encode t text 0 = Ok tokens ->
  (0 < n)%Z ->
  ((zlen tokens + 2 < n)%Z ->
   exists padded,
     encode t text n = Ok padded /\
     zlen padded = n /\
     decode t padded
     = Ok (_SOS ++ text ++ _EOS
           ++ concat (repeat _PAD (Z.to_nat (n - zlen tokens - 2))))) /\
  ((n <= zlen tokens + 2)%Z ->
   encode t text n = Raise (CannotPad (length tokens) n)).
Proof.
  intros I Hc En Hn; pose proof (instance_wf t I) as W.
  rewrite (encode_E t text W) in En; injection En as En.
  rewrite (encode_pad_E t text n W), En, (pad_value t tokens n W).
  replace (n >? 0)%Z with true by (symmetry; apply Z.gtb_lt; lia).
  split; intros L.
  - replace (zlen tokens + 2 >=? n)%Z with false
      by (symmetry; rewrite Z.geb_leb; apply Z.leb_gt; lia).
    eexists; split; [reflexivity|]; split.
    + unfold zlen in *; simpl; rewrite length_app; simpl; rewrite repeat_length; lia.
    + apply decode_Decodes; [exact W|].
      pose proof W as [ND _ _].
      assert (Cl := rebuild_dicts_closed _ ND).
      change (_SOS ++ text ++ _EOS ++ concat (repeat _PAD (Z.to_nat (n - zlen tokens - 2))))
        with (_SOS ++ (text ++ _EOS ++ concat (repeat _PAD (Z.to_nat (n - zlen tokens - 2))))).
      constructor; [rewrite Cl; reflexivity|].
      apply Decodes_app.
      * subst tokens; change text with (skipn 0 text) at 2.
        apply roundtrip_E with (n := S (measure text 0 0)); try lia.
        -- intros s M; apply rebuild_covers; assumption.
        -- intros s id G; apply rebuild_inverse; assumption.
        -- rewrite Cl; reflexivity.
        -- rewrite Cl; reflexivity.
        -- intros k Lk; unfold char_at; destruct (nth_error text k) eqn:N.
           ++ apply Hc; eapply nth_error_In, N.
           ++ apply nth_error_None in N; lia.
      * constructor; [rewrite Cl; reflexivity|].
        apply Decodes_repeat; rewrite Cl; reflexivity.
  - replace (zlen tokens + 2 >=? n)%Z with true
      by (symmetry; rewrite Z.geb_leb; apply Z.leb_le; lia).
    reflexivity.
Qed.

Lemma encode_padded_roundtrip_witness :
  instance unconfigured /\
  (forall c, In c (lit "ab"%string) -> Dict.mem (vocab unconfigured) [c] = true) /\
  encode unconfigured (lit "ab"%string) 0 = Ok [1; 2]%Z /\
  (0 < 6)%Z /\ (zlen [1; 2]%Z + 2 < 6)%Z /\
  (exists padded,
     encode unconfigured (lit "ab"%string) 6 = Ok padded /\
     zlen padded = 6%Z /\
     decode unconfigured padded
     = Ok (_SOS ++ lit "ab"%string ++ _EOS
           ++ concat (repeat _PAD (Z.to_nat (6 - zlen [1; 2]%Z - 2))))) /\
  (0 < 4)%Z /\ (4 <= zlen [1; 2]%Z + 2)%Z /\
  encode unconfigured (lit "ab"%string) 4 = Raise (CannotPad (length [1; 2]%Z) 4).
Proof.
  assert (H : forall c, In c (lit "ab"%string) -> Dict.mem (vocab unconfigured) [c] = true).
  { intros c I; simpl in I.
    repeat (destruct I as [<-|I]; [vm_compute; reflexivity|]); destruct I. }
  assert (En : encode unconfigured (lit "ab"%string) 0 = Ok [1; 2]%Z) by (vm_compute; reflexivity).
  assert (L6 : (0 < 6)%Z) by lia.
  assert (L4 : (0 < 4)%Z) by lia.
  assert (F6 : (zlen [1; 2]%Z + 2 < 6)%Z) by (vm_compute; reflexivity).
  assert (F4 : (4 <= zlen [1; 2]%Z + 2)%Z) by (vm_compute; discriminate).
  repeat (split; [assumption || exact instance_unconfigured|]).
  split; [|repeat (split; [assumption|])].
  - apply (proj1 (encode_padded_roundtrip unconfigured (lit "ab"%string) 6 [1; 2]%Z
                    instance_unconfigured H En L6) F6).
  - apply (proj2 (encode_padded_roundtrip unconfigured (lit "ab"%string) 4 [1; 2]%Z
                    instance_unconfigured H En L4) F4).
Defined.

(** ** IDs across updates *)

Lemma in_combine_prefix (L L' : list str) : forall i x,
  In x (combine L (zseq i (length L))) ->
  In x (combine (L ++ L') (zseq i (length (L ++ L')))).
Proof.
  induction L as [|k L IH]; intros i x; simpl; [intros []|].
  intros [E|I]; [left; exact E | right; apply IH, I].
Qed.

Lemma ids_prefix (v v' : Dict.t str Z) more s id :
  NoDup (Dict.keys v') ->
  Dict.keys v' = Dict.keys v ++ more ->
  Dict.get (fst (rebuild_dicts v)) s = Some id ->
  Dict.get (fst (rebuild_dicts v')) s = Some id.
Proof.
  intros ND' K.
  assert (ND : NoDup (Dict.keys v)) by (rewrite K in ND'; apply NoDup_app_remove_r in ND'; exact ND').
  rewrite (rebuild_dicts_closed v ND), (rebuild_dicts_closed v' ND'); cbn [fst].
  rewrite (get_In _ s id (NoDup_enc_keys v ND)), (get_In _ s id (NoDup_enc_keys v' ND')).
  rewrite !in_app_iff; intros [I|I]; [left; exact I|right].
  assert (Lr : learned v' = learned v ++ filter (fun k => negb (is_special k)) more)
    by (unfold learned; rewrite K, filter_app; reflexivity).
  rewrite Lr; apply in_combine_prefix, I.
Qed.

Lemma include_keys_prefix (cs : str) : forall v : Dict.t str Z,
  exists more,
    Dict.keys (fold_left (fun v c => bump v [c] 1%Z) cs v) = Dict.keys v ++ more.
Proof.
  induction cs as [|c cs IH]; intros v; simpl; [exists []; rewrite app_nil_r; reflexivity|].
  destruct (IH (bump v [c] 1%Z)) as [more K]; rewrite K, bump_keys.
  destruct (Dict.mem v [c]); [eauto|].
  exists ([c] :: more); rewrite <- app_assoc; reflexivity.
Qed.

Lemma train_keys_prefix t corpus n wl t' :
  train t corpus n wl = Ok t' -> exists more, Dict.keys (vocab t') = Dict.keys (vocab t) ++ more.
Proof.
  unfold train, train_merge.
  destruct (train_loop _ _ _ _ _ _ _) as [[s temp]| |] eqn:TL; simpl; try discriminate.
  intros E; injection E as <-.
  apply train_loop_vocab in TL; rewrite vocab_include, vocab_set_vocab_size in TL.
  rewrite vocab_update_vocab, TL.
  destruct (dict_update_keys temp (fold_left (fun v c => bump v [c] 1%Z) (corpus_text corpus)
                                     (vocab t))) as [m1 [K1 _]].
  destruct (include_keys_prefix (corpus_text corpus) (vocab t)) as [m0 K0].
  exists (m0 ++ m1); rewrite K1, K0, app_assoc; reflexivity.
Qed.

(** X8.  Loading a vocabulary or training never changes the ID of a
    symbol the object already had: every pair of the old encoder is a
    pair of the new one, and every old ID still decodes to its symbol. *)
Theorem ids_stable (t t' : tokenizer) (enc enc' : Dict.t str Z) (dec dec' : Dict.t Z str) :
  instance t ->
  (exists ext, t' = _update_vocab t ext) \/ (exists corpus n wl, train t corpus n wl = Ok t') ->
  encoder_dict t = Some enc -> decoder_dict t = Some dec ->
  encoder_dict t' = Some enc' -> decoder_dict t' = Some dec' ->
  (forall s id, Dict.get enc s = Some id -> Dict.get enc' s = Some id) /\
  (forall id s, Dict.get dec id = Some s -> Dict.get dec' id = Some s).
Proof.
  intros I Step He Hd He' Hd'.
  assert (I' : instance t').
  { destruct Step as [[ext ->]|[corpus [n [wl T]]]];
      [apply inst_load | eapply inst_train]; eassumption. }
  assert (K : exists more, Dict.keys (vocab t') = Dict.keys (vocab t) ++ more).
  { destruct Step as [[ext ->]|[corpus [n [wl T]]]]; [|eapply train_keys_prefix, T].
    rewrite vocab_update_vocab.
    destruct (dict_update_keys ext (vocab t)) as [more [K _]]; eauto. }
  destruct K as [more K].
  destruct (instance_wf t I) as [ND [SE SD] _], (instance_wf t' I') as [ND' [SE' SD'] _].
  assert (enc = fst (rebuild_dicts (vocab t))) by congruence.
  assert (dec = snd (rebuild_dicts (vocab t))) by congruence.
  assert (enc' = fst (rebuild_dicts (vocab t'))) by congruence.
  assert (dec' = snd (rebuild_dicts (vocab t'))) by congruence.
  subst enc dec enc' dec'.
  assert (A : forall s id,
             Dict.get (fst (rebuild_dicts (vocab t))) s = Some id ->
             Dict.get (fst (rebuild_dicts (vocab t'))) s = Some id).
  { intros s id; eapply ids_prefix; eassumption. }
  split; [exact A|].
  intros id s G; apply rebuild_inverse; [exact ND'|].
  apply A, rebuild_inverse; assumption.
Qed.

Lemma ids_stable_witness :
  exists t' enc enc' dec dec',
    instance unconfigured /\
    ((exists ext, t' = _update_vocab unconfigured ext) \/
     (exists corpus n wl, train unconfigured corpus n wl = Ok t')) /\
    encoder_dict unconfigured = Some enc /\ decoder_dict unconfigured = Some dec /\
    encoder_dict t' = Some enc' /\ decoder_dict t' = Some dec' /\
    (forall s id, Dict.get enc s = Some id -> Dict.get enc' s = Some id) /\
    (forall id s, Dict.get dec id = Some s -> Dict.get dec' id = Some s).
Proof.
  assert (Step : (exists ext, _update_vocab unconfigured [(lit "th"%string, 3%Z)]
                              = _update_vocab unconfigured ext) \/
                 (exists corpus n wl,
                    train unconfigured corpus n wl
                    = Ok (_update_vocab unconfigured [(lit "th"%string, 3%Z)])))
    by (left; eexists; reflexivity).
  eexists (_update_vocab unconfigured [(lit "th"%string, 3%Z)]), _, _, _, _.
  split; [exact instance_unconfigured|]; split; [exact Step|].
  split; [reflexivity|]; split; [reflexivity|]; split; [reflexivity|]; split; [reflexivity|].
  apply (ids_stable unconfigured (_update_vocab unconfigured [(lit "th"%string, 3%Z)])
           _ _ _ _ instance_unconfigured Step eq_refl eq_refl eq_refl eq_refl).
Defined.

(** ** Reloading the object's own vocabulary *)

Lemma set_same (d : Dict.t str Z) k n : Dict.get d k = Some n -> Dict.set d k n = d.
Proof.
  induction d as [|[k0 v0] r IH]; simpl; [discriminate|].
  destruct (str_eqb k0 k) eqn:E; intros G.
  - inversion G; subst; reflexivity.
  - f_equal; apply IH, G.
Qed.

Lemma dict_update_same (ext d : Dict.t str Z) :
  (forall k n, In (k, n) ext -> Dict.get d k = Some n) -> dict_update d ext = d.
Proof.
  unfold dict_update; induction ext as [|[k n] r IH]; intros H; simpl; [reflexivity|].
  rewrite (set_same d k n) by (apply H; left; reflexivity).
  apply IH; intros k' n' I; apply H; right; exact I.
Qed.

Lemma instance_vocab_size t : instance t -> vocab_size t = Some (zlen (vocab t)).
Proof.
  intros [c n vj t0 I | t0 c n wl t' _ T | t0 ext _].
  - eapply vocab_size_init, I.
  - eapply vocab_size_train, T.
  - apply vocab_size_update_vocab.
Qed.

(** X9.  Merging an instance's own table back into it (what saving the
    vocabulary and loading it again does) leaves the object exactly as
    it was: same table, same counts, same IDs, same recorded size. *)
Theorem reload_own_vocab (t : tokenizer) : instance t -> _update_vocab t (vocab t) = t.
Proof.
  intros I; destruct (instance_wf t I) as [ND [SE SD] _].
  pose proof (instance_vocab_size t I) as VS.
  assert (U : dict_update (vocab t) (vocab t) = vocab t).
  { apply dict_update_same; intros k n In'; apply get_In; assumption. }
  clear I; destruct t as [vs v e d]; cbn [vocab vocab_size encoder_dict decoder_dict] in *.
  unfold _update_vocab, _rebuild_token_dict, _set_vocab_size, set_vocab_field,
    set_vocab_size_field; cbn [vocab vocab_size encoder_dict decoder_dict].
  rewrite U, Z.geb_leb, Z.leb_refl; cbn [vocab vocab_size encoder_dict decoder_dict].
  subst vs e d; destruct (rebuild_dicts v) as [e' d']; reflexivity.
Qed.

Lemma reload_own_vocab_witness :
  instance unconfigured /\ _update_vocab unconfigured (vocab unconfigured) = unconfigured.
Proof.
  split; [exact instance_unconfigured|].
  apply (reload_own_vocab unconfigured instance_unconfigured).
Defined.

(** ** The candidates of a pass *)

Lemma trace_shape temp text : forall fuel i j w,
  i < j -> In w (scan_trace fuel temp text i j) ->
  exists i' j', i' < j' /\ j' < length text /\ w = slice text i' (S j').
Proof.
  induction fuel as [|fuel IH]; intros i j w L; simpl.
  - destruct ((j <? length text) && (2 <? length text)); intros [].
  - destruct ((j <? length text) && (2 <? length text)) eqn:C; [|intros []].
    apply andb_true_iff in C as [J _]; apply Nat.ltb_lt in J.
    rewrite slice_snoc by lia.
    destruct (Dict.mem temp (slice text i (S j))).
    + apply IH; lia.
    + intros [<-|I]; [exists i, j; auto | apply (IH j (j + 1)); [lia | exact I]].
Qed.

Lemma slice_length (text : str) i j : j <= length text -> length (slice text i j) = j - i.
Proof. intros L; unfold slice; rewrite length_firstn, length_skipn; lia. Qed.

Lemma slice_substring (text : str) i j :
  i <= j -> text = firstn i text ++ slice text i j ++ skipn j text.
Proof.
  intros L; rewrite <- (slice_skipn text i j L), firstn_skipn; reflexivity.
Qed.

Lemma short_unit_trace temp (text : str) :
  length text <= 2 -> scan_trace (length text) temp text 0 1 = [].
Proof.
  intros L; destruct (length text) as [|n] eqn:E; simpl; rewrite E;
    replace (2 <? _) with false by (symmetry; apply Nat.ltb_ge; lia);
    rewrite andb_false_r; reflexivity.
Qed.

(** X10.  The scan of one corpus unit always returns; every key it
    adds to the tally is a contiguous piece of the unit, at least two
    characters long, that is not in the working table; and a unit of at
    most two characters adds nothing. *)
Theorem scan_loop_candidates (_temp_vocab : Dict.t str Z) (text : str) (inc : Z)
    (word_freqs : Dict.t str Z) :
  exists word_freqs',
    scan_loop (length text) _temp_vocab text inc 0 1 word_freqs = Ok word_freqs' /\
    (forall k, Dict.mem word_freqs' k = true ->
       Dict.mem word_freqs k = true \/
       (2 <= length k /\ Dict.mem _temp_vocab k = false /\ exists a b, text = a ++ k ++ b)) /\
    (length text <= 2 -> word_freqs' = word_freqs).
Proof.
  eexists; split; [apply scan_loop_trace; lia|]; split.
  - intros k M; apply mem_keys in M.
    destruct (tally_into_keys
                (map (fun w => (w, inc)) (scan_trace (length text) _temp_vocab text 0 1))
                word_freqs) as [more [K [A _]]].
    rewrite K in M; apply in_app_iff in M as [M|M]; [left; apply mem_keys, M|right].
    specialize (A k M); rewrite map_map, map_id in A.
    pose proof (scan_trace_fresh _ _ _ _ _ _ A) as F.
    destruct (trace_shape _ _ _ 0 1 k ltac:(lia) A) as [i' [j' [L1 [L2 ->]]]].
    split; [rewrite slice_length; lia|]; split; [exact F|].
    exists (firstn i' text), (skipn (S j') text); apply slice_substring; lia.
  - intros L; rewrite short_unit_trace by exact L; reflexivity.
Qed.

(** ** Training that learns no merge *)

Lemma keys_update_known (ext d : Dict.t str Z) :
  (forall k, In k (Dict.keys ext) -> Dict.mem d k = true) ->
  Dict.keys (dict_update d ext) = Dict.keys d.
Proof.
  unfold dict_update; revert d; induction ext as [|[k v] r IH]; intros d H; simpl; [reflexivity|].
  rewrite IH.
  - apply keys_set_mem, H; left; reflexivity.
  - intros k' I; rewrite mem_set, (H k'); [apply orb_true_r | right; exact I].
Qed.

Lemma train_loop_no_candidate wl cw corpus n :
  (wl = true -> forall text, In text corpus -> Dict.mem cw text = true) ->
  forall fuel t temp t' temp',
    corpus_trace wl cw temp corpus = [] ->
    train_loop fuel wl cw corpus n t temp = Ok (t', temp') -> temp' = temp.
Proof.
  intros Hcw fuel t temp t' temp' Occ.
  destruct (Z.ltb_spec (zlen temp) n) as [Hlt|Hge].
  - destruct fuel as [|fuel].
    + cbn [train_loop]; replace (zlen temp <? n)%Z with true
        by (symmetry; apply Z.ltb_lt; exact Hlt); discriminate.
    + destruct (train_iteration wl cw corpus n temp Hcw Hlt)
        as [[_ T]|[best [_ [_ [_ [_ [_ [Io _]]]]]]]].
      * rewrite T; intros E; injection E as _ <-; reflexivity.
      * rewrite Occ in Io; destruct Io.
  - destruct fuel; cbn [train_loop];
      replace (zlen temp <? n)%Z with false by (symmetry; apply Z.ltb_ge; exact Hge);
      intros E; injection E as _ <-; reflexivity.
Qed.

Lemma train_without_merges t corpus n wl s :
  train_merge t corpus n wl = Ok (s, vocab t) ->
  exists t', train t corpus n wl = Ok t' /\
             Dict.keys (vocab t') = Dict.keys (vocab (_include_corpus_chars t corpus)).
Proof.
  intros T; exists (_update_vocab s (vocab t)); unfold train; rewrite T; split; [reflexivity|].
  unfold train_merge in T; apply train_loop_vocab in T.
  rewrite vocab_include, vocab_set_vocab_size in T.
  rewrite vocab_update_vocab, T, vocab_include.
  apply keys_update_known; intros k I.
  destruct (include_chars_fold (corpus_text corpus) (vocab t)) as [_ [M _]].
  apply M, mem_keys, I.
Qed.

Lemma short_units_trace wl cw temp (corpus : list str) :
  (forall u, In u corpus -> length u <= 2) -> corpus_trace wl cw temp corpus = [].
Proof.
  unfold corpus_trace; induction corpus as [|u r IH]; intros H; simpl; [reflexivity|].
  rewrite short_unit_trace by (apply H; left; reflexivity); simpl.
  apply IH; intros x I; apply H; right; exact I.
Qed.

(** X11.  When the requested size does not exceed the current table
    size, or when no corpus unit (word, or line without word_level) has
    more than two characters, [train] learns no merge: it returns, and
    the only symbols it adds are the corpus characters. *)
Theorem train_learns_nothing (t : tokenizer) (corpus : corpus_arg) (desired_vocab_size : Z)
    (word_level : bool) :
  (desired_vocab_size <= zlen (vocab t))%Z \/
  (forall u, In u (corpus_units word_level corpus) -> length u <= 2) ->
  exists t',
    train t corpus desired_vocab_size word_level = Ok t' /\
    Dict.keys (vocab t') = Dict.keys (vocab (_include_corpus_chars t corpus)).
Proof.
  intros H.
  destruct (train_merge_spec t corpus desired_vocab_size word_level) as [merges [R B]].
  destruct (R t eq_refl) as [s [T _]].
  assert (M : merges = []).
  { destruct H as [H|H].
    - unfold zlen in *; rewrite length_app in B; destruct merges; [reflexivity | simpl in B; lia].
    - pose proof T as T'; unfold train_merge in T'.
      apply train_loop_no_candidate in T'.
      + rewrite <- (app_nil_r (vocab t)) in T' at 2; apply app_inv_head in T'; exact T'.
      + apply units_counted.
      + apply short_units_trace, H. }
  subst merges; rewrite app_nil_r in T; eapply train_without_merges, T.
Qed.

Lemma train_learns_nothing_witness :
  ((200 <= zlen (vocab unconfigured))%Z \/
   (forall u, In u (corpus_units true (CorpusStr (lit "to be or"%string))) -> length u <= 2)) /\
  exists t',
    train unconfigured (CorpusStr (lit "to be or"%string)) 200 true = Ok t' /\
    Dict.keys (vocab t')
    = Dict.keys (vocab (_include_corpus_chars unconfigured (CorpusStr (lit "to be or"%string)))).
Proof.
  assert (H : (200 <= zlen (vocab unconfigured))%Z \/
              (forall u, In u (corpus_units true (CorpusStr (lit "to be or"%string))) ->
                         length u <= 2)).
  { right; intros u I; vm_compute in I.
    repeat (destruct I as [<-|I]; [simpl; lia|]); destruct I. }
  split; [exact H|].
  apply (train_learns_nothing unconfigured (CorpusStr (lit "to be or"%string)) 200 true H).
Defined.

(** ** Counts after training *)

Lemma corpus_trace_length wl cw temp corpus k :
  In k (map fst (corpus_trace wl cw temp corpus)) -> 2 <= length k.
Proof.
  intros I; apply in_map_iff in I as [[w inc] [E I]]; simpl in E; subst w.
  unfold corpus_trace in I; apply in_flat_map in I as [text [_ I]].
  apply in_map_iff in I as [w [E I]]; injection E as -> _.
  destruct (trace_shape _ _ _ 0 1 k ltac:(lia) I) as [i' [j' [L1 [L2 ->]]]].
  rewrite slice_length; lia.
Qed.

Lemma train_loop_keys wl cw corpus n :
  (wl = true -> forall text, In text corpus -> Dict.mem cw text = true) ->
  forall fuel t temp t' temp',
    train_loop fuel wl cw corpus n t temp = Ok (t', temp') ->
    NoDup (Dict.keys temp) ->
    NoDup (Dict.keys temp') /\
    forall k, In k (Dict.keys temp') -> In k (Dict.keys temp) \/ 2 <= length k.
Proof.
  intros Hcw; induction fuel as [|fuel IH]; intros t temp t' temp' T ND.
  - cbn [train_loop] in T; destruct (zlen temp <? n)%Z; [discriminate|].
    injection T as _ <-; auto.
  - destruct (Z.ltb_spec (zlen temp) n) as [Hlt|Hge].
    + destruct (train_iteration wl cw corpus n temp Hcw Hlt)
        as [[_ U]|[best [_ [_ [_ [_ [_ [Io [F U]]]]]]]]].
      * rewrite U in T; injection T as _ <-; auto.
      * rewrite U in T; apply IH in T; [|apply NoDup_keys_set, ND].
        destruct T as [ND' K]; split; [exact ND'|].
        intros k I; destruct (K k I) as [I'|L]; [|right; exact L].
        rewrite keys_set, F in I'; apply in_app_iff in I' as [I'|[<-|[]]]; [left; exact I'|].
        right; eapply corpus_trace_length, Io.
    + cbn [train_loop] in T.
      replace (zlen temp <? n)%Z with false in T by (symmetry; apply Z.ltb_ge; exact Hge).
      injection T as _ <-; auto.
Qed.

Lemma include_fold_get (cs : str) : forall (v : Dict.t str Z) c,
  get_or_zero (fold_left (fun v c => bump v [c] 1%Z) cs v) [c]
  = (get_or_zero v [c] + occurrences c cs)%Z.
Proof.
  induction cs as [|x cs IH]; intros v c; simpl; [lia|].
  rewrite IH, bump_get; simpl; rewrite andb_true_r; lia.
Qed.

(** X12.  After [train] on an instance, every symbol that was in the
    table before training has the count it had before (the counts that
    the corpus characters received during training are overwritten by
    the snapshot taken at the start), while a character new to the table
    has the number of its occurrences in the corpus. *)
Theorem train_keeps_old_counts (t t' : tokenizer) (corpus : corpus_arg)
    (desired_vocab_size : Z) (word_level : bool) :
  instance t ->
  train t corpus desired_vocab_size word_level = Ok t' ->
  (forall k, Dict.mem (vocab t) k = true -> Dict.get (vocab t') k = Dict.get (vocab t) k) /\
  (forall c, Dict.mem (vocab t) [c] = false -> In c (corpus_text corpus) ->
             Dict.get (vocab t') [c] = Some (occurrences c (corpus_text corpus))).
Proof.
  intros I T; destruct (instance_wf t I) as [ND _ _].
  destruct (train_merge_spec t corpus desired_vocab_size word_level) as [merges [R _]].
  destruct (R t eq_refl) as [s [TM V]].
  unfold train in T; rewrite TM in T; cbn [bind fst snd] in T; injection T as <-.
  pose proof TM as TK; unfold train_merge in TK.
  apply (train_loop_keys _ _ _ _ (units_counted word_level corpus)) in TK; [|exact ND].
  destruct TK as [ND' K].
  rewrite vocab_update_vocab, V, vocab_include.
  split.
  - intros k M; rewrite (dict_update_get _ _ k ND'), get_app.
    unfold Dict.mem in M; destruct (Dict.get (vocab t) k); [reflexivity | discriminate].
  - intros c M In'.
    assert (G0 : Dict.get (vocab t) [c] = None)
      by (unfold Dict.mem in M; destruct (Dict.get (vocab t) [c]); [discriminate | reflexivity]).
    assert (G1 : Dict.get (vocab t ++ merges) [c] = None).
    { apply get_none_keys; intros C; destruct (K _ C) as [C'|C']; [|simpl in C'; lia].
      apply (proj1 (get_none_keys (vocab t) [c]) G0), C'. }
    rewrite (dict_update_get _ _ [c] ND'), G1.
    destruct (include_chars_fold (corpus_text corpus) (vocab t)) as [_ [_ [Mc _]]].
    specialize (Mc c In'); cbv zeta in Mc.
    pose proof (include_fold_get (corpus_text corpus) (vocab t) c) as Gc.
    unfold get_or_zero in Gc at 1 2; rewrite G0 in Gc.
    unfold Dict.mem in Mc.
    destruct (Dict.get (fold_left (fun v c => bump v [c] 1%Z) (corpus_text corpus) (vocab t)) [c]);
      [f_equal; lia | discriminate].
Qed.

Lemma train_keeps_old_counts_witness :
  exists t',
    instance unconfigured /\
    train unconfigured (CorpusStr ("a"%char :: accented)) 100 false = Ok t' /\
    (forall k, Dict.mem (vocab unconfigured) k = true ->
               Dict.get (vocab t') k = Dict.get (vocab unconfigured) k) /\
    (forall c, Dict.mem (vocab unconfigured) [c] = false ->
               In c (corpus_text (CorpusStr ("a"%char :: accented))) ->
               Dict.get (vocab t') [c]
               = Some (occurrences c (corpus_text (CorpusStr ("a"%char :: accented))))).
Proof.
  destruct (train unconfigured (CorpusStr ("a"%char :: accented)) 100 false) as [t'| |] eqn:T.
  - exists t'; split; [exact instance_unconfigured|]; split; [reflexivity|].
    apply (train_keeps_old_counts unconfigured t' _ 100 false instance_unconfigured T).
  - vm_compute in T; discriminate.
  - vm_compute in T; discriminate.
Defined.

(** ** Counts do not steer the codec *)

Lemma rebuild_keys_only (v v' : Dict.t str Z) :
  Dict.keys v = Dict.keys v' -> rebuild_dicts v = rebuild_dicts v'.
Proof. intros K; unfold rebuild_dicts; rewrite K; reflexivity. Qed.

Lemma mem_keys_only (v v' : Dict.t str Z) k :
  Dict.keys v = Dict.keys v' -> Dict.mem v k = Dict.mem v' k.
Proof. intros K; apply eq_true_iff_eq; rewrite !mem_keys, K; reflexivity. Qed.

Lemma encode_iter_mem_ext v v' enc text st :
  (forall k, Dict.mem v k = Dict.mem v' k) ->
  encode_iter v enc text st = encode_iter v' enc text st.
Proof. intros H; unfold encode_iter; rewrite H; reflexivity. Qed.

Lemma encode_loop_mem_ext v v' enc text :
  (forall k, Dict.mem v k = Dict.mem v' k) ->
  forall fuel st, encode_loop fuel v enc text st = encode_loop fuel v' enc text st.
Proof.
  intros H; induction fuel as [|fuel IH]; intros st; simpl; [reflexivity|].
  rewrite (encode_iter_mem_ext v v' enc text st H).
  destruct (st_j st <=? length text); [|reflexivity].
  destruct (encode_iter v' enc text st); cbn [bind]; auto.
Qed.

(** X13.  Two instances whose tables list the same symbols in the same
    order encode every text (with or without padding) and decode every
    token list alike, whatever the counts stored with the symbols. *)
Theorem codec_ignores_counts (t1 t2 : tokenizer) :
  instance t1 -> instance t2 ->
  Dict.keys (vocab t1) = Dict.keys (vocab t2) ->
  (forall text pad_to_tokens, encode t1 text pad_to_tokens = encode t2 text pad_to_tokens) /\
  (forall tokens, decode t1 tokens = decode t2 tokens).
Proof.
  intros I1 I2 K.
  destruct (instance_wf t1 I1) as [_ [SE1 SD1] _], (instance_wf t2 I2) as [_ [SE2 SD2] _].
  rewrite <- (rebuild_keys_only _ _ K) in SE2, SD2.
  split.
  - intros text p; unfold encode; rewrite SE1, SE2; cbn [dict_missing dict_of bind].
    destruct (Dict.is_empty (fst (rebuild_dicts (vocab t1)))); [reflexivity|].
    rewrite (encode_loop_mem_ext (vocab t1) (vocab t2) _ text
               (fun k => mem_keys_only _ _ k K)).
    destruct (encode_loop _ _ _ _ _) as [tokens| |]; cbn [bind]; try reflexivity.
    destruct (p >? 0)%Z; [|reflexivity].
    unfold pad; rewrite SE1, SE2; reflexivity.
  - intros tokens; unfold decode, _decode_chunks; rewrite SD1, SD2; reflexivity.
Qed.

Lemma codec_ignores_counts_witness :
  instance unconfigured /\
  instance (_update_vocab unconfigured [(lit "a"%string, 5%Z)]) /\
  Dict.keys (vocab unconfigured)
  = Dict.keys (vocab (_update_vocab unconfigured [(lit "a"%string, 5%Z)])) /\
  (forall text pad_to_tokens,
     encode unconfigured text pad_to_tokens
     = encode (_update_vocab unconfigured [(lit "a"%string, 5%Z)]) text pad_to_tokens) /\
  (forall tokens,
     decode unconfigured tokens
     = decode (_update_vocab unconfigured [(lit "a"%string, 5%Z)]) tokens).
Proof.
  assert (I2 : instance (_update_vocab unconfigured [(lit "a"%string, 5%Z)]))
    by (apply inst_load, instance_unconfigured).
  assert (K : Dict.keys (vocab unconfigured)
              = Dict.keys (vocab (_update_vocab unconfigured [(lit "a"%string, 5%Z)])))
    by (vm_compute; reflexivity).
  split; [exact instance_unconfigured|]; split; [exact I2|]; split; [exact K|].
  apply (codec_ignores_counts unconfigured _ instance_unconfigured I2 K).
Defined.
